(** * sam_opts.c: the global-option helpers of samtools

    A shallow embedding of [assign_short_opts], [parse_sam_global_opt],
    [sam_global_opt_help] and [sam_global_args_init], and the properties
    of the option table, the dispatcher and the settings structure that
    follow from the code. *)

From Stdlib Require Import ZArith String Ascii Lia.
From stdpp Require Import base tactics option list strings gmap.

Local Open Scope Z_scope.

(** ** The C machine model *)

(** A C computation finishes with a value, runs into undefined behaviour
    (an access outside an array, a null pointer handed to [strcmp]), or is
    still running when the step budget of a loop is used up. *)
Inductive outcome (A : Type) : Type :=
  | Done (a : A)
  | Undefined
  | OutOfFuel.
Arguments Done {A} a.
Arguments Undefined {A}.
Arguments OutOfFuel {A}.

#[global] Instance outcome_ret : MRet outcome := fun A a => Done a.
#[global] Instance outcome_bind : MBind outcome := fun A B f m =>
  match m with
  | Done a => f a
  | Undefined => Undefined
  | OutOfFuel => OutOfFuel
  end.

(** [int] is the 32-bit two's complement integer of the platforms samtools
    builds on.  The standard leaves signed overflow undefined; the model
    writes out the wrap-around the hardware performs. *)
Definition INT_MAX : Z := 2147483647.
Definition INT_MIN : Z := -2147483648.
Definition int_wrap (z : Z) : Z := (z + 2147483648) mod 4294967296 - 2147483648.

(** The terminator of a C string. *)
Definition NUL : ascii := "000"%char.

(** [char] to [int]: plain [char] is signed on the x86 targets, so codes
    from 128 on become negative; the 7-bit characters keep their code. *)
Definition int_of_char (c : ascii) : Z :=
  let n := Z.of_N (N_of_ascii c) in
  if n <? 128 then n else n - 256.

(** A [const char *] that is not null points to the characters before the
    terminator; [s[i]] may be read up to and including the terminator. *)
Definition str_at (s : list ascii) (i : Z) : outcome ascii :=
  if i <? 0 then Undefined
  else match s !! Z.to_nat i with
       | Some c => Done c
       | None => if i =? Z.of_nat (length s) then Done NUL else Undefined
       end.

(** Arrays are lists; an index outside the array is undefined. *)
Definition arr_get {A} (a : list A) (i : Z) : outcome A :=
  if i <? 0 then Undefined
  else match a !! Z.to_nat i with
       | Some x => Done x
       | None => Undefined
       end.

Definition arr_set {A} (a : list A) (i : Z) (x : A) : outcome (list A) :=
  if i <? 0 then Undefined
  else if i <? Z.of_nat (length a) then Done (<[Z.to_nat i := x]> a)
  else Undefined.

(** ** The option table *)

(** [struct option] of <getopt.h>.  [name] is a [const char *] (null in the
    terminating entry), [flag] an [int *] kept as an address. *)
Record struct_option : Type := {
  name : option string;
  has_arg : Z;
  flag : option Z;
  val : Z
}.

#[global] Instance struct_option_eq_dec : EqDecision struct_option.
Proof. solve_decision. Defined.

(** The assignment [lopts[j].val = v]. *)
Definition set_val (d : struct_option) (v : Z) : struct_option :=
  {| name := name d; has_arg := has_arg d; flag := flag d; val := v |}.

(** ** assign_short_opts *)

(** The variables of [assign_short_opts]: the read cursor [i], the write
    cursor [j] and the table [lopts]. *)
Record remap_state : Type := {
  ci : Z;
  cj : Z;
  tbl : list struct_option
}.

(** The loop test [shortopts && shortopts[i]]. *)
Definition remap_cond (shortopts : option (list ascii)) (st : remap_state)
  : outcome bool :=
  match shortopts with
  | None => Done false
  | Some s => c ← str_at s (ci st); Done (negb (Ascii.eqb c NUL))
  end.

(** One iteration: the body, then [i++, j++]. *)
Definition remap_body (s : list ascii) (st : remap_state) : outcome remap_state :=
  e ← arr_get (tbl st) (ci st);
  t1 ← arr_set (tbl st) (cj st) e;
  c ← str_at s (ci st);
  '(j, t2) ←
    (if Ascii.eqb c "-" then Done (cj st - 1, t1)
     else if negb (Ascii.eqb c ".") then
       d ← arr_get t1 (cj st);
       t2 ← arr_set t1 (cj st) (set_val d (int_of_char c));
       Done (cj st, t2)
     else Done (cj st, t1));
  Done {| ci := ci st + 1; cj := j + 1; tbl := t2 |}.

Fixpoint remap_loop (fuel : nat) (shortopts : option (list ascii))
    (st : remap_state) : outcome remap_state :=
  match fuel with
  | O => OutOfFuel
  | S fuel' =>
      b ← remap_cond shortopts st;
      if b : bool then
        match shortopts with
        | Some s => st' ← remap_body s st; remap_loop fuel' shortopts st'
        | None => Undefined
        end
      else Done st
  end.

(** The loop stops at the terminator at the latest, so one test more than
    the string has characters is all it can run. *)
Definition remap_fuel (shortopts : option (list ascii)) : nat :=
  match shortopts with
  | None => 1%nat
  | Some s => S (length s)
  end.

Definition assign_short_opts (lopts : list struct_option)
    (shortopts : option (list ascii)) : outcome (list struct_option) :=
  st ← remap_loop (remap_fuel shortopts) shortopts
         {| ci := 0; cj := 0; tbl := lopts |};
  e ← arr_get (tbl st) (ci st);
  arr_set (tbl st) (cj st) e.

(** The states the loop passes through at its test, from the call on. *)
Inductive remap_reach (s : list ascii) (t0 : list struct_option)
  : remap_state -> Prop :=
  | reach_init : remap_reach s t0 {| ci := 0; cj := 0; tbl := t0 |}
  | reach_step (st st' : remap_state) :
      remap_reach s t0 st ->
      remap_cond (Some s) st = Done true ->
      remap_body s st = Done st' ->
      remap_reach s t0 st'.

(** The characters of a string literal, for control strings. *)
Definition chars (s : string) : list ascii := list_ascii_of_string s.

(** The table as [getopt_long] reads it: the entries before the first one
    whose [name] is null. *)
Fixpoint active (t : list struct_option) : list struct_option :=
  match t with
  | [] => []
  | d :: t' => match name d with
               | None => []
               | Some _ => d :: active t'
               end
  end.

(** What the control string asks for, in the words of the specification:
    the descriptors not marked [-], in order, a letter assigned as the
    short form and [.] leaving the descriptor as it is. *)
Definition relabel (c : ascii) (d : struct_option) : struct_option :=
  if Ascii.eqb c "." then d else set_val d (int_of_char c).

Definition compacted (s : list ascii) (descs : list struct_option)
  : list struct_option :=
  (fun p => relabel p.1 p.2) <$> filter (fun p => p.1 ≠ "-"%char) (zip s descs).

Definition count_dash (s : list ascii) : nat :=
  length (filter (fun c => c = "-"%char) s).

(** ** Global settings *)

(** One parsed format option of htslib ([struct hts_opt]): the text it was
    parsed from, the tokenised key and the value, a number or a string.
    This layer never looks inside one. *)
Record hts_opt : Type := {
  opt_arg : string;
  opt_key : Z;
  opt_val : Z + string
}.

(** [htsFormat] of htslib: the scalar description of the format and the
    list of format options it owns ([opts], null when empty). *)
Record htsFormat : Type := {
  category : Z;
  format : Z;
  version_major : Z;
  version_minor : Z;
  compression : Z;
  compression_level : Z;
  opts : list hts_opt
}.

(** Modelled from the spec: [sam_global_args] is declared in sam_opts.h,
    which is not part of the sources at hand.  The specification gives it
    an input format, an output format and a verbosity counter; the code
    reaches them as [ga->in], [ga->out] and [ga->verbosity]. *)
Record sam_global_args : Type := {
  in_ : htsFormat;
  out : htsFormat;
  verbosity : Z
}.

Definition set_opts (f : htsFormat) (l : list hts_opt) : htsFormat :=
  {| category := category f; format := format f;
     version_major := version_major f; version_minor := version_minor f;
     compression := compression f; compression_level := compression_level f;
     opts := l |}.
Definition set_in (ga : sam_global_args) (f : htsFormat) : sam_global_args :=
  {| in_ := f; out := out ga; verbosity := verbosity ga |}.
Definition set_out (ga : sam_global_args) (f : htsFormat) : sam_global_args :=
  {| in_ := in_ ga; out := f; verbosity := verbosity ga |}.
Definition set_verbosity (ga : sam_global_args) (v : Z) : sam_global_args :=
  {| in_ := in_ ga; out := out ga; verbosity := v |}.

(** The two functions of htslib the dispatcher calls.  Each receives a
    pointer to the part of the settings it may change and the argument
    text, and returns its status with the new contents. *)
Class Htslib : Type := {
  hts_parse_opt_format : htsFormat -> option string -> Z * htsFormat;
  hts_opt_add : list hts_opt -> option string -> Z * list hts_opt
}.

(** ** parse_sam_global_opt *)

(** What goes to [stderr]: the one [fprintf] of the dispatcher, with the
    pointer handed to its [%s]. *)
Inductive stderr_event : Type :=
  | Unexpected_global_option (arg : option string).

(** The [while] loop.  [k] is how far [lopt] has moved from the start of
    the table.  The result is the state in which the loop is left, by its
    test or by a [break]. *)
Fixpoint dispatch_loop `{Htslib} (fuel : nat) (c : Z) (optarg : option string)
    (lopts : list struct_option) (k : Z) (r : Z) (ga : sam_global_args)
  : outcome (Z * Z * sam_global_args) :=
  match fuel with
  | O => OutOfFuel
  | S fuel' =>
      d ← arr_get lopts k;
      match name d with
      | None => Done (k, r, ga)
      | Some nm =>
          if negb (c =? val d) then
            dispatch_loop fuel' c optarg lopts (k + 1) r ga
          else if String.eqb nm "input-fmt" then
            let '(r', f) := hts_parse_opt_format (in_ ga) optarg in
            Done (k, r', set_in ga f)
          else if String.eqb nm "input-fmt-option" then
            let '(r', l) := hts_opt_add (opts (in_ ga)) optarg in
            Done (k, r', set_in ga (set_opts (in_ ga) l))
          else if String.eqb nm "output-fmt" then
            let '(r', f) := hts_parse_opt_format (out ga) optarg in
            Done (k, r', set_out ga f)
          else if String.eqb nm "output-fmt-option" then
            let '(r', l) := hts_opt_add (opts (out ga)) optarg in
            Done (k, r', set_out ga (set_opts (out ga) l))
          else if String.eqb nm "verbose" then
            Done (k, r, set_verbosity ga (int_wrap (verbosity ga + 1)))
          else
            dispatch_loop fuel' c optarg lopts k r ga
      end
  end.

(** The dispatcher: the status, the settings as it leaves them and what it
    wrote to [stderr]. *)
Definition parse_sam_global_opt `{Htslib} (fuel : nat) (c : Z)
    (optarg : option string) (lopt : list struct_option) (ga : sam_global_args)
  : outcome (Z * sam_global_args * list stderr_event) :=
  '(k, r, ga') ← dispatch_loop fuel c optarg lopt 0 0 ga;
  d ← arr_get lopt k;
  match name d with
  | None => Done (-1, ga', [Unexpected_global_option (name d)])
  | Some _ => Done (r, ga', [])
  end.

(** ** sam_global_opt_help *)

Definition nl : string := String "010" EmptyString.

(** The first [fprintf] of an iteration. *)
Definition help_header (c : ascii) : string :=
  if Ascii.eqb c "." then "      --"
  else "  -" ++ String c ", --".

(** The chain of [strcmp]s that prints the description. *)
Definition help_text (nm : string) : string :=
  if String.eqb nm "input-fmt" then
    "input-fmt FORMAT[,OPT[=VAL]]..." ++ nl ++
    "               Specify input format (SAM, BAM, CRAM)" ++ nl
  else if String.eqb nm "input-fmt-option" then
    "input-fmt-option OPT[=VAL]" ++ nl ++
    "               Specify a single input file format option in the form" ++ nl ++
    "               of OPTION or OPTION=VALUE" ++ nl
  else if String.eqb nm "output-fmt" then
    "output-fmt FORMAT[,OPT[=VAL]]..." ++ nl ++
    "               Specify output format (SAM, BAM, CRAM)" ++ nl
  else if String.eqb nm "output-fmt-option" then
    "output-fmt-option OPT[=VAL]" ++ nl ++
    "               Specify a single output file format option in the form" ++ nl ++
    "               of OPTION or OPTION=VALUE" ++ nl
  else if String.eqb nm "verbose" then
    "verbose" ++ nl ++
    "               Increment level of verbosity" ++ nl
  else "".

(** The [for] loop; [fp] is what the stream holds. *)
Fixpoint help_loop (fuel : nat) (lopts : list struct_option)
    (shortopts : option (list ascii)) (i : Z) (fp : string) : outcome string :=
  match fuel with
  | O => OutOfFuel
  | S fuel' =>
      match shortopts with
      | None => Done fp
      | Some s =>
          c ← str_at s i;
          if Ascii.eqb c NUL then Done fp
          else if negb (i <? Z.of_nat (length lopts)) then Done fp
          else if Ascii.eqb c "-" then help_loop fuel' lopts shortopts (i + 1) fp
          else
            d ← arr_get lopts i;
            match name d with
            | None => Undefined
            | Some nm =>
                help_loop fuel' lopts shortopts (i + 1)
                  (fp ++ help_header c ++ help_text nm)
            end
      end
  end.

(** [lopts] is the table the macro [SAM_GLOBAL_LOPTS_INIT] of sam_opts.h
    expands to, terminator included ([nopts] counts it). *)
Definition sam_global_opt_help (lopts : list struct_option) (fp : string)
    (shortopts : option (list ascii)) : outcome string :=
  help_loop (S (length lopts)) lopts shortopts 0 fp.

(** A descriptor with no [flag], and the entry that ends a table. *)
Definition opt (n : string) (a : Z) (v : Z) : struct_option :=
  {| name := Some n; has_arg := a; flag := None; val := v |}.
Definition sentinel : struct_option :=
  {| name := None; has_arg := 0; flag := None; val := 0 |}.

(** Modelled from the spec: the macro [SAM_GLOBAL_LOPTS_INIT] of
    sam_opts.h, which is not part of the sources at hand.  The
    specification lists five long options, in this order, each with its
    short form unset, the first four taking an argument; the table ends
    with the terminating entry. *)
Definition SAM_GLOBAL_LOPTS_INIT : list struct_option :=
  [ opt "input-fmt" 1 0; opt "input-fmt-option" 1 0; opt "output-fmt" 1 0;
    opt "output-fmt-option" 1 0; opt "verbose" 0 0; sentinel ].

(** ** sam_global_args_init *)

(** What [memset] with 0 leaves in a format and in the settings. *)
Definition zero_format : htsFormat :=
  {| category := 0; format := 0; version_major := 0; version_minor := 0;
     compression := 0; compression_level := 0; opts := [] |}.
Definition zero_args : sam_global_args :=
  {| in_ := zero_format; out := zero_format; verbosity := 0 |}.

(** The settings objects that exist are kept by address; a pointer is an
    address or null.  [memset(ga, 0, sizeof( *ga))] on an object that
    exists; a pointer to nothing is undefined. *)
Definition sam_global_args_init (ga : option positive)
    (mem : gmap positive sam_global_args) : outcome (gmap positive sam_global_args) :=
  match ga with
  | None => Done mem
  | Some a =>
      match mem !! a with
      | Some _ => Done (<[a := zero_args]> mem)
      | None => Undefined
      end
  end.

(** ** sam_global_args_free *)

(** [hts_opt_free] belongs to htslib; the model records the lists it is
    handed, in the order of the calls.  An option list pointer is null
    exactly when the list is empty.  The routine reads the object behind
    [ga] without a test for null and writes nothing to it, so the two
    [opts] fields keep pointing at what was freed. *)
Definition freed_if_any (l : list hts_opt) : list (list hts_opt) :=
  match l with
  | [] => []
  | _ :: _ => [l]
  end.

Definition sam_global_args_free (ga : option positive)
    (mem : gmap positive sam_global_args) : outcome (list (list hts_opt)) :=
  match ga with
  | None => Undefined
  | Some a =>
      match mem !! a with
      | Some g => Done (freed_if_any (opts (in_ g)) ++ freed_if_any (opts (out g)))
      | None => Undefined
      end
  end.

(** ** Statement devices *)

(** The dispatcher called [n] times in a row on the same code, as the
    option scanner of a subcommand does for a repeated flag: the statuses
    in order and the settings after the last call. *)
Fixpoint dispatch_times `{Htslib} (n : nat) (fuel : nat) (c : Z)
    (optarg : option string) (lopt : list struct_option) (ga : sam_global_args)
  : outcome (list Z * sam_global_args) :=
  match n with
  | O => Done ([], ga)
  | S n' =>
      '(r, ga1, _) ← parse_sam_global_opt fuel c optarg lopt ga;
      '(rs, ga2) ← dispatch_times n' fuel c optarg lopt ga1;
      Done (r :: rs, ga2)
  end.

(** The help text for a control string read against the descriptors: one
    block, header then description, for each character other than [-]. *)
Definition help_block (p : ascii * struct_option) : string :=
  help_header p.1 +:+ help_text (default EmptyString (name p.2)).

Definition help_blocks (s : list ascii) (descs : list struct_option) : string :=
  foldr (fun p acc => help_block p +:+ acc) EmptyString
        (filter (fun p => p.1 ≠ "-"%char) (zip s descs)).

(** What [assign_short_opts] never changes in a descriptor. *)
Definition opt_key_fields (d : struct_option) : option string * Z * option Z :=
  (name d, has_arg d, flag d).

(** The five names the [strcmp] chain of the dispatcher knows. *)
Definition is_global_name (nm : string) : bool :=
  String.eqb nm "input-fmt" || String.eqb nm "input-fmt-option" ||
  String.eqb nm "output-fmt" || String.eqb nm "output-fmt-option" ||
  String.eqb nm "verbose".

(** ** A stand-in for htslib *)

(** The properties below hold for whatever the two htslib functions do.
    Where a concrete instance is needed, this one is used: the format
    parser takes every text and leaves the format as it is, and the option
    parser splits [KEY=VALUE] at the first [=] and appends the option. *)
Fixpoint split_eq (s : string) : string * string :=
  match s with
  | EmptyString => (EmptyString, EmptyString)
  | String c s' =>
      if Ascii.eqb c "=" then (EmptyString, s')
      else let '(k, v) := split_eq s' in (String c k, v)
  end.

Definition key_code (k : string) : Z :=
  if String.eqb k "nthreads" then 1 else 0.

Definition value_digit (v : string) : Z + string :=
  match v with
  | String c EmptyString =>
      let n := Z.of_N (N_of_ascii c) in
      if (48 <=? n) && (n <=? 57) then inl (n - 48) else inr v
  | _ => inr v
  end.

#[global] Instance htslib_model : Htslib := {
  hts_parse_opt_format f arg :=
    match arg with
    | None => (-1, f)
    | Some _ => (0, f)
    end;
  hts_opt_add l arg :=
    match arg with
    | None => (-1, l)
    | Some a =>
        let '(k, v) := split_eq a in
        (0, l ++ [{| opt_arg := a; opt_key := key_code k; opt_val := value_digit v |}])
    end
}.

(** ** Sample tables and settings *)

(** A table of two descriptors with codes outside the character range,
    as a subcommand declares it before remapping. *)
Definition opts_ab : list struct_option :=
  [ opt "input-fmt" 1 300; opt "verbose" 0 301; sentinel ].

(** A table of three descriptors after remapping: [O] for [output-fmt],
    [v] for [verbose]. *)
Definition opts_remapped : list struct_option :=
  [ opt "input-fmt-option" 1 300; opt "output-fmt" 1 79; opt "verbose" 0 118;
    sentinel; sentinel ].

Definition nthreads_4 : hts_opt :=
  {| opt_arg := "nthreads=4"; opt_key := 1; opt_val := inl 4 |}.
Definition level_9 : hts_opt :=
  {| opt_arg := "level=9"; opt_key := 0; opt_val := inl 9 |}.

(** Settings with one input format option already added. *)
Definition args_with_level : sam_global_args :=
  {| in_ := set_opts zero_format [level_9]; out := zero_format; verbosity := 2 |}.

(** * Properties *)

(** ** Arrays and strings at a natural index *)

Lemma arr_get_nat {A} (a : list A) (n : nat) :
  arr_get a (Z.of_nat n) =
  match a !! n with Some x => Done x | None => Undefined end.
Proof.
  unfold arr_get. destruct (Z.ltb_spec (Z.of_nat n) 0); [lia|].
  by rewrite Nat2Z.id.
Qed.

Lemma arr_set_nat {A} (a : list A) (n : nat) (x : A) :
  (n < length a)%nat ->
  arr_set a (Z.of_nat n) x = Done (<[n := x]> a).
Proof.
  intros Hn. unfold arr_set.
  destruct (Z.ltb_spec (Z.of_nat n) 0); [lia|].
  destruct (Z.ltb_spec (Z.of_nat n) (Z.of_nat (length a))); [|lia].
  by rewrite Nat2Z.id.
Qed.

Lemma str_at_char (s : list ascii) (n : nat) (c : ascii) :
  s !! n = Some c -> str_at s (Z.of_nat n) = Done c.
Proof.
  intros Hc. unfold str_at.
  destruct (Z.ltb_spec (Z.of_nat n) 0); [lia|].
  by rewrite Nat2Z.id, Hc.
Qed.

Lemma str_at_end (s : list ascii) :
  str_at s (Z.of_nat (length s)) = Done NUL.
Proof.
  unfold str_at.
  destruct (Z.ltb_spec (Z.of_nat (length s)) 0); [lia|].
  rewrite Nat2Z.id, (lookup_ge_None_2 s (length s)) by lia.
  by rewrite Z.eqb_refl.
Qed.

(** A 7-bit character, a letter for one, is assigned as its code. *)
Lemma int_of_char_7bit (c : ascii) :
  (N_of_ascii c < 128)%N -> int_of_char c = Z.of_N (N_of_ascii c).
Proof.
  intros Hc. unfold int_of_char.
  destruct (Z.ltb_spec (Z.of_N (N_of_ascii c)) 128); [done|lia].
Qed.

(** ** The compacted table *)

Lemma compacted_nil_l (t : list struct_option) : compacted [] t = [].
Proof. done. Qed.

Lemma compacted_cons (c : ascii) (s : list ascii) (d : struct_option)
    (t : list struct_option) :
  compacted (c :: s) (d :: t) =
  (if Ascii.eqb c "-" then [] else [relabel c d]) ++ compacted s t.
Proof.
  unfold compacted. simpl. rewrite filter_cons. simpl.
  destruct (Ascii.eqb_spec c "-") as [->|Hc].
  - by rewrite decide_False by (intros Hn; by apply Hn).
  - by rewrite decide_True by done.
Qed.

Lemma compacted_length (s : list ascii) (t : list struct_option) :
  (length s <= length t)%nat ->
  length (compacted s t) = (length s - count_dash s)%nat.
Proof.
  revert t. induction s as [|c s IH]; intros t Hl; [done|].
  destruct t as [|d t]; simpl in Hl; [lia|].
  rewrite compacted_cons, length_app, IH by lia.
  unfold count_dash. rewrite filter_cons.
  pose proof (length_filter (fun c => c = "-"%char) s) as Hf.
  destruct (Ascii.eqb_spec c "-") as [->|Hc].
  - rewrite decide_True by done. simpl. lia.
  - rewrite decide_False by done. simpl. lia.
Qed.

Lemma compacted_app (s1 s2 : list ascii) (t1 t2 : list struct_option) :
  length s1 = length t1 ->
  compacted (s1 ++ s2) (t1 ++ t2) = compacted s1 t1 ++ compacted s2 t2.
Proof.
  revert t1. induction s1 as [|c s1 IH]; intros [|d t1] Hl;
    simpl in Hl; try lia; [done|].
  simpl. rewrite !compacted_cons, IH by lia. by rewrite app_assoc.
Qed.

Lemma compacted_nil_r (s : list ascii) : compacted s [] = [].
Proof. by destruct s. Qed.

(** Only the descriptors the control string reaches count. *)
Lemma compacted_take (s : list ascii) (t : list struct_option) :
  compacted s t = compacted s (take (length s) t).
Proof.
  revert t. induction s as [|c s IH]; intros [|d t]; try done.
  simpl. by rewrite !compacted_cons, IH.
Qed.

Lemma relabel_name (c : ascii) (d : struct_option) :
  name (relabel c d) = name d.
Proof. unfold relabel. by destruct (Ascii.eqb c "."). Qed.

Lemma compacted_named (s : list ascii) (t : list struct_option) :
  Forall (fun d => is_Some (name d)) t ->
  Forall (fun d => is_Some (name d)) (compacted s t).
Proof.
  revert t. induction s as [|c s IH]; intros [|d t] Ht;
    try (rewrite ?compacted_nil_r; by constructor).
  inversion Ht as [|? ? Hd Ht']; subst. rewrite compacted_cons.
  apply Forall_app. split; [|by apply IH].
  destruct (Ascii.eqb c "-"); [constructor|].
  constructor; [by rewrite relabel_name|constructor].
Qed.

Lemma active_app_sentinel (k : list struct_option) (e : struct_option)
    (rest : list struct_option) :
  Forall (fun d => is_Some (name d)) k -> name e = None ->
  active (k ++ e :: rest) = k.
Proof.
  intros Hk He. induction Hk as [|d k [n Hd] _ IH]; simpl.
  - by rewrite He.
  - by rewrite Hd, IH.
Qed.

(** ** The loop of assign_short_opts *)

Lemma remap_body_run (s : list ascii) (t T : list struct_option)
    (i j : nat) (c : ascii) (e : struct_option) :
  s !! i = Some c -> t !! i = Some e ->
  (j <= i)%nat -> length T = length t -> drop i T = drop i t ->
  exists (j' : nat) (T' : list struct_option),
    remap_body s {| ci := Z.of_nat i; cj := Z.of_nat j; tbl := T |} =
      Done {| ci := Z.of_nat (S i); cj := Z.of_nat j'; tbl := T' |} /\
    (j' <= S i)%nat /\ length T' = length t /\
    drop (S i) T' = drop (S i) t /\
    take j' T' = take j T ++ (if Ascii.eqb c "-" then [] else [relabel c e]) /\
    j' = (j + length (if Ascii.eqb c "-" then [] else [relabel c e]))%nat.
Proof.
  intros Hc He Hji HT Hd.
  assert (Hi : (i < length t)%nat) by (by eapply lookup_lt_Some).
  assert (HTi : T !! i = Some e).
  { rewrite <- He, <- (Nat.add_0_r i), <- !lookup_drop, Hd. done. }
  assert (Hdrop : forall x, drop (S i) (<[j := x]> T) = drop (S i) t).
  { intros x. rewrite drop_insert_lt by lia.
    replace (S i) with (i + 1)%nat by lia.
    by rewrite <- !drop_drop, Hd. }
  unfold remap_body. cbn [ci cj tbl].
  rewrite arr_get_nat, HTi. simpl.
  rewrite arr_set_nat by lia. simpl.
  rewrite (str_at_char _ _ _ Hc). simpl.
  destruct (Ascii.eqb c "-") eqn:Edash; simpl.
  - exists j, (<[j := e]> T). repeat split.
    + do 2 f_equal; lia.
    + lia.
    + by rewrite length_insert.
    + apply Hdrop.
    + rewrite take_insert_ge by lia. by rewrite app_nil_r.
    + lia.
  - unfold relabel. destruct (Ascii.eqb c ".") eqn:Edot; simpl.
    + exists (S j), (<[j := e]> T). repeat split.
      * do 2 f_equal; lia.
      * lia.
      * by rewrite length_insert.
      * apply Hdrop.
      * rewrite (take_S_r _ _ e).
        -- by rewrite take_insert_ge by lia.
        -- apply list_lookup_insert_eq. lia.
      * lia.
    + rewrite arr_get_nat, list_lookup_insert_eq by lia. simpl.
      rewrite arr_set_nat by (rewrite length_insert; lia). simpl.
      rewrite list_insert_insert_eq.
      exists (S j), (<[j := set_val e (int_of_char c)]> T). repeat split.
      * do 2 f_equal; lia.
      * lia.
      * by rewrite length_insert.
      * apply Hdrop.
      * rewrite (take_S_r _ _ (set_val e (int_of_char c))).
        -- by rewrite take_insert_ge by lia.
        -- apply list_lookup_insert_eq. lia.
      * lia.
Qed.

Lemma remap_loop_run (s : list ascii) (t : list struct_option) :
  NUL ∉ s -> (length s < length t)%nat ->
  forall (m i j : nat) (T : list struct_option) (fuel : nat),
    (i + m = length s)%nat -> (j <= i)%nat ->
    length T = length t -> drop i T = drop i t -> (m < fuel)%nat ->
    exists (j' : nat) (T' : list struct_option),
      remap_loop fuel (Some s)
        {| ci := Z.of_nat i; cj := Z.of_nat j; tbl := T |} =
        Done {| ci := Z.of_nat (length s); cj := Z.of_nat j'; tbl := T' |} /\
      (j' <= length s)%nat /\ length T' = length t /\
      drop (length s) T' = drop (length s) t /\
      take j' T' = take j T ++ compacted (drop i s) (drop i t) /\
      j' = (j + length (compacted (drop i s) (drop i t)))%nat.
Proof.
  intros Hnul Hlen m.
  induction m as [|m IH]; intros i j T fuel Him Hji HT Hd Hfuel;
    (destruct fuel as [|fuel]; [lia|]); cbn [remap_loop remap_cond ci].
  - assert (i = length s) as -> by lia.
    rewrite str_at_end. simpl.
    exists j, T. rewrite drop_all, compacted_nil_l, app_nil_r.
    repeat split; try done; simpl; lia.
  - destruct (lookup_lt_is_Some_2 s i) as [c Hc]; [lia|].
    destruct (lookup_lt_is_Some_2 t i) as [e He]; [lia|].
    rewrite (str_at_char _ _ _ Hc). simpl.
    assert (Hcn : c <> NUL).
    { intros ->. apply Hnul. by eapply list_elem_of_lookup_2. }
    destruct (Ascii.eqb_spec c NUL) as [|_]; [done|]. simpl.
    destruct (remap_body_run s t T i j c e Hc He Hji HT Hd)
      as (j1 & T1 & -> & Hj1 & HT1 & Hd1 & Htake1 & Hjv1).
    simpl.
    destruct (IH (S i) j1 T1 fuel) as (j' & T' & Hrun & Hj' & HT' & Hd' & Htake & Hjv);
      try done; try lia.
    exists j', T'. rewrite Hrun.
    rewrite (drop_S s c i Hc), (drop_S t e i He), compacted_cons.
    repeat split; try done.
    + rewrite Htake, Htake1. by rewrite app_assoc.
    + rewrite Hjv, Hjv1, length_app. lia.
Qed.

(** What [assign_short_opts] leaves, for a control string that stays
    inside the table: the compacted descriptors, then a copy of the entry
    the string stopped at. *)
Lemma assign_short_opts_run (t : list struct_option) (s : list ascii)
    (e : struct_option) :
  NUL ∉ s -> t !! length s = Some e ->
  exists junk : list struct_option,
    assign_short_opts t (Some s) = Done (compacted s t ++ e :: junk) /\
    length (compacted s t ++ e :: junk) = length t.
Proof.
  intros Hnul He.
  assert (Hlen : (length s < length t)%nat) by (by eapply lookup_lt_Some).
  destruct (remap_loop_run s t Hnul Hlen (length s) 0 0 t (S (length s)))
    as (j' & T' & Hrun & Hj' & HT' & Hd' & Htake & Hjv); try done; try lia.
  unfold assign_short_opts. cbn [remap_fuel].
  change 0 with (Z.of_nat 0). rewrite Hrun.
  rewrite take_0, !drop_0 in Htake. rewrite !drop_0 in Hjv.
  simpl in Htake, Hjv. cbn [mbind outcome_bind ci cj tbl].
  assert (HTe : T' !! length s = Some e).
  { rewrite <- He, <- (Nat.add_0_r (length s)), <- !lookup_drop. by rewrite Hd'. }
  rewrite arr_get_nat, HTe. simpl.
  rewrite arr_set_nat by lia. simpl.
  exists (drop (S j') T'). split.
  - f_equal. rewrite <- Htake.
    rewrite <- (take_insert_ge T' j' j' e) by lia.
    rewrite <- (drop_insert_lt T' (S j') j' e) by lia.
    symmetry. apply take_drop_middle.
    apply list_lookup_insert_eq. lia.
  - rewrite length_app. simpl. rewrite length_drop, <- Htake, length_take. lia.
Qed.

(** ** The compacted table: claims about assign_short_opts *)

(** C1, as the code has it.  For a table of descriptors followed by the
    terminating entry and a control string with exactly one character per
    descriptor, [assign_short_opts] returns, and the active table it leaves
    is the descriptors not marked [-], in their order: it has as many
    entries as the string has characters other than [-]; the descriptor at
    a position holding a letter stands after the kept ones before it with
    that letter as [val], the one at a [.] stands there unchanged. *)
Theorem assign_short_opts_compacts (descs : list struct_option)
    (sen : struct_option) (rest : list struct_option) (s : list ascii) :
  Forall (fun d => is_Some (name d)) descs -> name sen = None ->
  NUL ∉ s -> length s = length descs ->
  exists t' : list struct_option,
    assign_short_opts (descs ++ sen :: rest) (Some s) = Done t' /\
    active t' = compacted s descs /\
    length (active t') = (length s - count_dash s)%nat /\
    forall (i : nat) (c : ascii) (d : struct_option),
      s !! i = Some c -> descs !! i = Some d -> c <> "-"%char ->
      active t' !! (i - count_dash (take i s))%nat =
        Some (if Ascii.eqb c "." then d else set_val d (int_of_char c)).
Proof.
  intros Hdescs Hsen Hnul Hlen.
  assert (Hc : compacted s (descs ++ sen :: rest) = compacted s descs).
  { by rewrite compacted_take, Hlen, take_app_length. }
  destruct (assign_short_opts_run (descs ++ sen :: rest) s sen Hnul)
    as (junk & Hrun & _).
  { rewrite Hlen. by apply list_lookup_middle. }
  rewrite Hc in Hrun. eexists. split; [exact Hrun|].
  rewrite active_app_sentinel by (by apply compacted_named || done).
  split; [done|]. split; [apply compacted_length; lia|].
  intros i c d Hi Hd Hdash.
  assert (Hil : (i < length s)%nat) by (by eapply lookup_lt_Some).
  assert (Hsplit : compacted s descs =
            compacted (take i s ++ c :: drop (S i) s)
                      (take i descs ++ d :: drop (S i) descs)).
  { by rewrite !take_drop_middle. }
  rewrite Hsplit.
  rewrite compacted_app by (rewrite !length_take; lia).
  rewrite compacted_cons.
  destruct (Ascii.eqb_spec c "-") as [|_]; [done|]. simpl.
  apply list_lookup_middle.
  rewrite compacted_length by (rewrite !length_take; lia).
  rewrite length_take. f_equal. lia.
Qed.

Lemma assign_short_opts_compacts_witness :
  exists t' : list struct_option,
    assign_short_opts opts_ab (Some (chars "-v")) = Done t' /\
    active t' = compacted (chars "-v") [opt "input-fmt" 1 300; opt "verbose" 0 301] /\
    length (active t') = (2 - count_dash (chars "-v"))%nat /\
    forall (i : nat) (c : ascii) (d : struct_option),
      chars "-v" !! i = Some c ->
      [opt "input-fmt" 1 300; opt "verbose" 0 301] !! i = Some d ->
      c <> "-"%char ->
      active t' !! (i - count_dash (take i (chars "-v")))%nat =
        Some (if Ascii.eqb c "." then d else set_val d (int_of_char c)).
Proof.
  apply (assign_short_opts_compacts
           [opt "input-fmt" 1 300; opt "verbose" 0 301] sentinel [] (chars "-v")).
  - repeat constructor; by eexists.
  - reflexivity.
  - intros Hin. repeat (apply elem_of_cons in Hin as [Hin|Hin]; [discriminate|]).
    by apply elem_of_nil in Hin.
  - reflexivity.
Defined.

(** C1 fails for a control string shorter than the table: with two
    descriptors and the string [-], the final copy brings the second
    descriptor, not the terminating entry, to position 0, and the active
    table has two entries where the claim counts none. *)
Lemma assign_short_opts_short_string_counterexample :
  (length (chars "-") <= 2)%nat /\
  assign_short_opts opts_ab (Some (chars "-")) =
    Done [opt "verbose" 0 301; opt "verbose" 0 301; sentinel] /\
  length (active [opt "verbose" 0 301; opt "verbose" 0 301; sentinel]) = 2%nat /\
  (length (chars "-") - count_dash (chars "-"))%nat = 0%nat.
Proof. repeat split; vm_compute; lia. Qed.

(** C2, as the code has it.  The entry the routine writes after the last
    kept one is a copy of the entry the control string stopped at.  With one
    character per descriptor that is the terminating entry, and it lands at
    index [|s|] minus the number of [-], right behind the compacted
    descriptors.  With the control string absent or empty the copy is of
    entry 0 onto itself and the table is left as it was. *)
Theorem assign_short_opts_sentinel (descs : list struct_option)
    (sen : struct_option) (rest : list struct_option) (s : list ascii) :
  NUL ∉ s -> length s = length descs ->
  (exists t' : list struct_option,
     assign_short_opts (descs ++ sen :: rest) (Some s) = Done t' /\
     take (length s - count_dash s) t' = compacted s descs /\
     t' !! (length s - count_dash s)%nat = Some sen) /\
  assign_short_opts (descs ++ sen :: rest) None = Done (descs ++ sen :: rest) /\
  assign_short_opts (descs ++ sen :: rest) (Some []) = Done (descs ++ sen :: rest).
Proof.
  intros Hnul Hlen. split.
  - assert (Hc : compacted s (descs ++ sen :: rest) = compacted s descs).
    { by rewrite compacted_take, Hlen, take_app_length. }
    destruct (assign_short_opts_run (descs ++ sen :: rest) s sen Hnul)
      as (junk & Hrun & _).
    { rewrite Hlen. by apply list_lookup_middle. }
    rewrite Hc in Hrun. eexists. split; [exact Hrun|].
    assert (Hk : length (compacted s descs) = (length s - count_dash s)%nat).
    { apply compacted_length. lia. }
    rewrite <- Hk. split.
    + by rewrite take_app_length.
    + by apply list_lookup_middle.
  - split.
    + by destruct descs.
    + by destruct descs.
Qed.

Lemma assign_short_opts_sentinel_witness :
  (exists t' : list struct_option,
     assign_short_opts opts_ab (Some (chars "-v")) = Done t' /\
     take (2 - count_dash (chars "-v")) t' =
       compacted (chars "-v") [opt "input-fmt" 1 300; opt "verbose" 0 301] /\
     t' !! (2 - count_dash (chars "-v"))%nat = Some sentinel) /\
  assign_short_opts opts_ab None = Done opts_ab /\
  assign_short_opts opts_ab (Some []) = Done opts_ab.
Proof.
  apply (assign_short_opts_sentinel
           [opt "input-fmt" 1 300; opt "verbose" 0 301] sentinel [] (chars "-v")).
  - intros Hin. repeat (apply elem_of_cons in Hin as [Hin|Hin]; [discriminate|]).
    by apply elem_of_nil in Hin.
  - reflexivity.
Defined.

(** C2 fails when the control string is absent or empty: the table is
    returned as it was, its first entry is still the first descriptor and
    both descriptors stay active; no terminating entry is written at
    position 0. *)
Lemma assign_short_opts_null_counterexample :
  assign_short_opts opts_ab None = Done opts_ab /\
  assign_short_opts opts_ab (Some (chars "")) = Done opts_ab /\
  opts_ab !! 0%nat = Some (opt "input-fmt" 1 300) /\
  name (opt "input-fmt" 1 300) = Some "input-fmt"%string /\
  active opts_ab = [opt "input-fmt" 1 300; opt "verbose" 0 301].
Proof. repeat split. Qed.

(** ** The cursors of assign_short_opts *)

Lemma arr_get_Done {A} (a : list A) (i : Z) (x : A) :
  arr_get a i = Done x -> 0 <= i /\ a !! Z.to_nat i = Some x.
Proof.
  unfold arr_get. destruct (Z.ltb_spec i 0); [done|].
  destruct (a !! Z.to_nat i); [|done]. intros [= ->]. split; [lia|done].
Qed.

Lemma arr_set_Done {A} (a a' : list A) (i : Z) (x : A) :
  arr_set a i x = Done a' ->
  0 <= i < Z.of_nat (length a) /\ a' = <[Z.to_nat i := x]> a.
Proof.
  unfold arr_set. destruct (Z.ltb_spec i 0); [done|].
  destruct (Z.ltb_spec i (Z.of_nat (length a))); [|done].
  intros [= <-]. split; [lia|done].
Qed.

Lemma bind_Done {A B} (m : outcome A) (f : A -> outcome B) (b : B) :
  m ≫= f = Done b -> exists a : A, m = Done a /\ f a = Done b.
Proof. destruct m; try done. intros Hf. by eexists. Qed.

(** One iteration moves [i] on by one, leaves [j] or moves it on by one,
    and writes at [j] only. *)
Lemma remap_body_Done (s : list ascii) (st st' : remap_state) :
  remap_body s st = Done st' ->
  ci st' = ci st + 1 /\ (cj st' = cj st \/ cj st' = cj st + 1) /\
  0 <= cj st < Z.of_nat (length (tbl st)) /\
  exists x : struct_option, tbl st' = <[Z.to_nat (cj st) := x]> (tbl st).
Proof.
  unfold remap_body. intros H.
  apply bind_Done in H as (e & _ & H).
  apply bind_Done in H as (t1 & [Hj ->]%arr_set_Done & H).
  apply bind_Done in H as (c & _ & H).
  apply bind_Done in H as ([j t2] & Hbr & [= <-]). cbn [ci cj tbl].
  destruct (Ascii.eqb c "-").
  { injection Hbr as <- <-. repeat split; try lia. by eexists. }
  destruct (Ascii.eqb c "."); simpl in Hbr.
  - injection Hbr as <- <-. repeat split; try lia. by eexists.
  - apply bind_Done in Hbr as (d & _ & Hbr).
    apply bind_Done in Hbr as (t3 & [_ ->]%arr_set_Done & [= <- <-]).
    repeat split; try lia. rewrite list_insert_insert_eq. by eexists.
Qed.

(** Every state in which the loop of [assign_short_opts] is left has been
    passed through at a test, so what holds at the tests holds for the copy
    after the loop as well. *)
Lemma remap_loop_reach (s : list ascii) (t0 : list struct_option) (fuel : nat) :
  forall st st' : remap_state,
    remap_reach s t0 st ->
    remap_loop fuel (Some s) st = Done st' ->
    remap_reach s t0 st'.
Proof.
  induction fuel as [|fuel IH]; intros st st' Hreach Hrun; [done|].
  cbn [remap_loop] in Hrun.
  apply bind_Done in Hrun as (b & Hcond & Hrun).
  destruct b; [|by injection Hrun as <-].
  apply bind_Done in Hrun as (st1 & Hbody & Hrun).
  apply (IH st1); [|done]. by eapply reach_step.
Qed.

(** C10.  At every test of the loop the write cursor is not ahead of the
    read cursor and the table from the read cursor on is still the
    original, so the entry the next copy reads, [lopts[i]], is the
    original descriptor at [i]. *)
Theorem remap_write_cursor_behind (s : list ascii) (t0 : list struct_option)
    (st : remap_state) :
  remap_reach s t0 st ->
  0 <= cj st <= ci st /\
  length (tbl st) = length t0 /\
  (forall k : nat, ci st <= Z.of_nat k -> tbl st !! k = t0 !! k) /\
  arr_get (tbl st) (ci st) = arr_get t0 (ci st).
Proof.
  intros Hreach.
  assert (Hinv : 0 <= cj st <= ci st /\ length (tbl st) = length t0 /\
            forall k : nat, ci st <= Z.of_nat k -> tbl st !! k = t0 !! k).
  { induction Hreach as [|st st' _ (Hji & Hlen & Hsame) _ Hbody]; [done|].
    apply remap_body_Done in Hbody as (Hi & Hj & Hjr & x & Ht).
    rewrite Ht, length_insert. repeat split; try lia.
    intros k Hk. rewrite list_lookup_insert_ne by lia. apply Hsame. lia. }
  destruct Hinv as (Hji & Hlen & Hsame). repeat split; try done; try lia.
  unfold arr_get. destruct (Z.ltb_spec (ci st) 0); [done|].
  rewrite Hsame by lia. done.
Qed.

Lemma remap_write_cursor_behind_witness :
  0 <= 1 <= 2 /\
  length [opt "verbose" 0 118; opt "verbose" 0 301; sentinel] = length opts_ab /\
  (forall k : nat, 2 <= Z.of_nat k ->
     [opt "verbose" 0 118; opt "verbose" 0 301; sentinel] !! k = opts_ab !! k) /\
  arr_get [opt "verbose" 0 118; opt "verbose" 0 301; sentinel] 2 = arr_get opts_ab 2.
Proof.
  apply (remap_write_cursor_behind (chars "-v") opts_ab
           {| ci := 2; cj := 1;
              tbl := [opt "verbose" 0 118; opt "verbose" 0 301; sentinel] |}).
  eapply reach_step; [eapply reach_step; [apply reach_init| |]| |];
    reflexivity.
Defined.

(** ** The dispatcher *)

Lemma int_wrap_id (z : Z) : INT_MIN <= z <= INT_MAX -> int_wrap z = z.
Proof.
  unfold INT_MIN, INT_MAX, int_wrap. intros Hz.
  rewrite Z.mod_small by lia. lia.
Qed.

(** Entries that have a name and another code are stepped over, one test
    each. *)
Lemma dispatch_loop_skip `{Htslib} (pre tl : list struct_option) (c : Z)
    (optarg : option string) (r : Z) (ga : sam_global_args) (f : nat) :
  Forall (fun d => is_Some (name d) /\ val d <> c) pre ->
  forall n k : nat, (k + n = length pre)%nat ->
    dispatch_loop (n + f) c optarg (pre ++ tl) (Z.of_nat k) r ga =
    dispatch_loop f c optarg (pre ++ tl) (Z.of_nat (length pre)) r ga.
Proof.
  intros Hpre n. induction n as [|n IH]; intros k Hk.
  - simpl. do 2 f_equal. lia.
  - destruct (lookup_lt_is_Some_2 pre k) as [d Hd]; [lia|].
    destruct (proj1 (Forall_lookup _ pre) Hpre k d Hd) as [[nm Hnm] Hval].
    cbn [Nat.add dispatch_loop].
    rewrite arr_get_nat, (lookup_app_l_Some _ _ _ _ Hd). simpl.
    rewrite Hnm. destruct (Z.eqb_spec c (val d)) as [->|_]; [done|]. simpl.
    replace (Z.of_nat k + 1) with (Z.of_nat (S k)) by lia.
    apply IH. lia.
Qed.

(** C3.  When no entry before the terminating one carries the code, the
    dispatcher returns -1 and the settings are as they were; the only
    effect is the message on [stderr]. *)
Theorem parse_sam_global_opt_unmatched `{Htslib} (fuel : nat) (c : Z)
    (optarg : option string) (pre : list struct_option) (sen : struct_option)
    (rest : list struct_option) (ga : sam_global_args) :
  Forall (fun d => is_Some (name d) /\ val d <> c) pre ->
  name sen = None ->
  (length pre < fuel)%nat ->
  parse_sam_global_opt fuel c optarg (pre ++ sen :: rest) ga =
    Done (-1, ga, [Unexpected_global_option None]).
Proof.
  intros Hpre Hsen Hfuel. unfold parse_sam_global_opt.
  replace fuel with (length pre + S (fuel - length pre - 1))%nat by lia.
  change 0 with (Z.of_nat 0) at 1.
  rewrite (dispatch_loop_skip pre (sen :: rest) c optarg 0 ga _ Hpre (length pre) 0)
    by lia.
  cbn [dispatch_loop].
  rewrite arr_get_nat, list_lookup_middle by done. simpl.
  rewrite Hsen. simpl.
  rewrite arr_get_nat, list_lookup_middle by done. simpl.
  by rewrite Hsen.
Qed.

Lemma parse_sam_global_opt_unmatched_witness :
  parse_sam_global_opt 4 122 (Some "bam"%string) opts_remapped zero_args =
    Done (-1, zero_args, [Unexpected_global_option None]).
Proof.
  apply (parse_sam_global_opt_unmatched 4 122 (Some "bam"%string)
           [opt "input-fmt-option" 1 300; opt "output-fmt" 1 79; opt "verbose" 0 118]
           sentinel [sentinel] zero_args).
  - repeat (constructor; [split; [by eexists|done]|]); constructor.
  - reflexivity.
  - simpl. lia.
Defined.

(** An entry that carries the code under a name the chain does not know
    is neither handled nor stepped over: the loop tests it again, for
    ever. *)
Lemma dispatch_loop_unknown_name `{Htslib} (lopts : list struct_option)
    (k : nat) (d : struct_option) (nm : string) (c : Z)
    (optarg : option string) (r : Z) (ga : sam_global_args) (fuel : nat) :
  lopts !! k = Some d -> name d = Some nm -> val d = c ->
  is_global_name nm = false ->
  dispatch_loop fuel c optarg lopts (Z.of_nat k) r ga = OutOfFuel.
Proof.
  intros Hd Hnm Hval Hglob. unfold is_global_name in Hglob.
  apply orb_false_iff in Hglob as [Hglob Hv].
  apply orb_false_iff in Hglob as [Hglob Hoo].
  apply orb_false_iff in Hglob as [Hglob Ho].
  apply orb_false_iff in Hglob as [Hi Hio].
  induction fuel as [|fuel IH]; [done|].
  cbn [dispatch_loop]. rewrite arr_get_nat, Hd. simpl.
  rewrite Hnm, Hval, Z.eqb_refl. simpl.
  by rewrite Hi, Hio, Ho, Hoo, Hv.
Qed.

(** C4, where the code departs from it.  A table whose entry for the code
    has a name outside the five: whatever the number of steps allowed,
    the dispatcher has not returned. *)
Theorem parse_sam_global_opt_unknown_name_loops (fuel : nat) :
  parse_sam_global_opt fuel 64 (Some "4"%string)
    [opt "threads" 1 64; sentinel] zero_args = OutOfFuel.
Proof.
  unfold parse_sam_global_opt. change 0 with (Z.of_nat 0) at 1.
  by rewrite (dispatch_loop_unknown_name _ 0 (opt "threads" 1 64) "threads").
Qed.

(** C5, where the code departs from it.  The message is printed once the
    scan has reached the terminating entry, and the pointer handed to [%s]
    is that entry's [name], which is null: two different codes that match
    nothing produce the same message, and neither the code nor an option
    name is in it. *)
Theorem parse_sam_global_opt_message_names_nothing :
  parse_sam_global_opt 4 122 None opts_remapped zero_args =
    Done (-1, zero_args, [Unexpected_global_option None]) /\
  parse_sam_global_opt 4 79 None
    [opt "input-fmt-option" 1 300; sentinel] zero_args =
    Done (-1, zero_args, [Unexpected_global_option None]).
Proof. split; reflexivity. Qed.

(** One dispatch of the code of [verbose]. *)
Lemma parse_sam_global_opt_verbose `{Htslib} (fuel : nat) (c : Z)
    (optarg : option string) (pre : list struct_option) (e : struct_option)
    (post : list struct_option) (ga : sam_global_args) :
  Forall (fun d => is_Some (name d) /\ val d <> c) pre ->
  name e = Some "verbose"%string -> val e = c ->
  (length pre < fuel)%nat ->
  parse_sam_global_opt fuel c optarg (pre ++ e :: post) ga =
    Done (0, set_verbosity ga (int_wrap (verbosity ga + 1)), []).
Proof.
  intros Hpre Hnm Hval Hfuel. unfold parse_sam_global_opt.
  replace fuel with (length pre + S (fuel - length pre - 1))%nat by lia.
  change 0 with (Z.of_nat 0) at 1.
  rewrite (dispatch_loop_skip pre (e :: post) c optarg 0 ga _ Hpre (length pre) 0)
    by lia.
  cbn [dispatch_loop].
  rewrite arr_get_nat, list_lookup_middle by done. simpl.
  rewrite Hnm, Hval, Z.eqb_refl. simpl.
  rewrite arr_get_nat, list_lookup_middle by done. simpl.
  by rewrite Hnm.
Qed.

(** C6, as the code has it.  When the first entry carrying the code is
    [verbose] and the counter is at most [INT_MAX - 3], three dispatches
    return 0 each and leave the counter three higher, the formats
    untouched. *)
Theorem parse_sam_global_opt_verbose_three `{Htslib} (fuel : nat) (c : Z)
    (optarg : option string) (pre : list struct_option) (e : struct_option)
    (post : list struct_option) (ga : sam_global_args) :
  Forall (fun d => is_Some (name d) /\ val d <> c) pre ->
  name e = Some "verbose"%string -> val e = c ->
  INT_MIN <= verbosity ga <= INT_MAX - 3 ->
  (length pre < fuel)%nat ->
  exists ga1 ga2 ga3 : sam_global_args,
    parse_sam_global_opt fuel c optarg (pre ++ e :: post) ga = Done (0, ga1, []) /\
    parse_sam_global_opt fuel c optarg (pre ++ e :: post) ga1 = Done (0, ga2, []) /\
    parse_sam_global_opt fuel c optarg (pre ++ e :: post) ga2 = Done (0, ga3, []) /\
    verbosity ga3 = verbosity ga + 3 /\
    in_ ga3 = in_ ga /\ out ga3 = out ga.
Proof.
  intros Hpre Hnm Hval Hv Hfuel.
  do 3 eexists.
  rewrite !(parse_sam_global_opt_verbose fuel c optarg pre e post) by done.
  repeat split. cbn [verbosity set_verbosity].
  unfold INT_MIN, INT_MAX in Hv.
  rewrite (int_wrap_id (verbosity ga + 1)) by (unfold INT_MIN, INT_MAX; lia).
  rewrite (int_wrap_id (verbosity ga + 1 + 1)) by (unfold INT_MIN, INT_MAX; lia).
  rewrite (int_wrap_id (verbosity ga + 1 + 1 + 1)) by (unfold INT_MIN, INT_MAX; lia).
  lia.
Qed.

Lemma parse_sam_global_opt_verbose_three_witness :
  exists ga1 ga2 ga3 : sam_global_args,
    parse_sam_global_opt 4 118 None opts_remapped zero_args = Done (0, ga1, []) /\
    parse_sam_global_opt 4 118 None opts_remapped ga1 = Done (0, ga2, []) /\
    parse_sam_global_opt 4 118 None opts_remapped ga2 = Done (0, ga3, []) /\
    verbosity ga3 = verbosity zero_args + 3 /\
    in_ ga3 = in_ zero_args /\ out ga3 = out zero_args.
Proof.
  apply (parse_sam_global_opt_verbose_three 4 118 None
           [opt "input-fmt-option" 1 300; opt "output-fmt" 1 79]
           (opt "verbose" 0 118) [sentinel; sentinel] zero_args).
  - repeat (constructor; [split; [by eexists|done]|]); constructor.
  - reflexivity.
  - reflexivity.
  - vm_compute. split; discriminate.
  - simpl. lia.
Defined.

(** C6 fails in two ways.  With the counter at [INT_MAX] the three
    dispatches return 0 but leave [INT_MIN + 2], not [INT_MAX + 3].  And
    when an earlier entry carries the same code as [verbose], the
    dispatcher takes that entry: the format parser is called and the
    counter stays where it was. *)
Lemma parse_sam_global_opt_verbose_counterexample :
  (exists ga1 ga2 ga3 : sam_global_args,
     parse_sam_global_opt 4 118 None opts_remapped
       (set_verbosity zero_args INT_MAX) = Done (0, ga1, []) /\
     parse_sam_global_opt 4 118 None opts_remapped ga1 = Done (0, ga2, []) /\
     parse_sam_global_opt 4 118 None opts_remapped ga2 = Done (0, ga3, []) /\
     verbosity ga3 = -2147483646 /\
     verbosity (set_verbosity zero_args INT_MAX) + 3 = 2147483650) /\
  parse_sam_global_opt 4 118 (Some "bam"%string)
    [opt "input-fmt" 1 118; opt "verbose" 0 118; sentinel] zero_args =
    Done (0, zero_args, []).
Proof. split; [do 3 eexists|]; repeat split. Qed.

(** C7.  [hts_opt_add] belongs to htslib; what it does with the text
    [nthreads=4] enters as its contract: status 0 and the option [o]
    appended to the list it was given.  The dispatcher hands it the option
    list of the input format and nothing else: it returns 0, the list is
    the old one followed by [o], and the rest of the input format, the
    output format and the counter are as before. *)
Theorem parse_sam_global_opt_input_fmt_option `{Htslib} (fuel : nat) (c : Z)
    (pre : list struct_option) (e : struct_option) (post : list struct_option)
    (ga : sam_global_args) (o : hts_opt) :
  Forall (fun d => is_Some (name d) /\ val d <> c) pre ->
  name e = Some "input-fmt-option"%string -> val e = c ->
  hts_opt_add (opts (in_ ga)) (Some "nthreads=4"%string) =
    (0, opts (in_ ga) ++ [o]) ->
  (length pre < fuel)%nat ->
  exists ga' : sam_global_args,
    parse_sam_global_opt fuel c (Some "nthreads=4"%string) (pre ++ e :: post) ga =
      Done (0, ga', []) /\
    opts (in_ ga') = opts (in_ ga) ++ [o] /\
    in_ ga' = set_opts (in_ ga) (opts (in_ ga) ++ [o]) /\
    (forall k : nat, (k < length (opts (in_ ga)))%nat ->
       opts (in_ ga') !! k = opts (in_ ga) !! k) /\
    length (opts (in_ ga')) = S (length (opts (in_ ga))) /\
    out ga' = out ga /\
    verbosity ga' = verbosity ga.
Proof.
  intros Hpre Hnm Hval Hadd Hfuel. unfold parse_sam_global_opt.
  replace fuel with (length pre + S (fuel - length pre - 1))%nat by lia.
  change 0 with (Z.of_nat 0) at 1.
  rewrite (dispatch_loop_skip pre (e :: post) c _ 0 ga _ Hpre (length pre) 0)
    by lia.
  cbn [dispatch_loop].
  rewrite arr_get_nat, list_lookup_middle by done. simpl.
  rewrite Hnm, Hval, Z.eqb_refl. simpl. rewrite Hadd. simpl.
  rewrite arr_get_nat, list_lookup_middle by done. simpl.
  rewrite Hnm. eexists. split; [done|]. simpl. repeat split.
  - intros k Hk. by apply lookup_app_l.
  - rewrite length_app. simpl. lia.
Qed.

Lemma parse_sam_global_opt_input_fmt_option_witness :
  exists ga' : sam_global_args,
    parse_sam_global_opt 4 300 (Some "nthreads=4"%string) opts_remapped
      args_with_level = Done (0, ga', []) /\
    opts (in_ ga') = [level_9; nthreads_4] /\
    in_ ga' = set_opts (in_ args_with_level) [level_9; nthreads_4] /\
    (forall k : nat, (k < 1)%nat ->
       opts (in_ ga') !! k = opts (in_ args_with_level) !! k) /\
    length (opts (in_ ga')) = 2%nat /\
    out ga' = out args_with_level /\
    verbosity ga' = verbosity args_with_level.
Proof.
  apply (parse_sam_global_opt_input_fmt_option 4 300 []
           (opt "input-fmt-option" 1 300)
           [opt "output-fmt" 1 79; opt "verbose" 0 118; sentinel; sentinel]
           args_with_level nthreads_4).
  - constructor.
  - reflexivity.
  - reflexivity.
  - reflexivity.
  - simpl. lia.
Defined.

(** ** The help text *)

Lemma string_app_assoc (s1 s2 s3 : string) :
  (s1 +:+ s2) +:+ s3 = s1 +:+ (s2 +:+ s3).
Proof.
  induction s1 as [|c s1 IH]; [done|].
  change (String c ((s1 +:+ s2) +:+ s3) = String c (s1 +:+ (s2 +:+ s3))).
  by f_equal.
Qed.

(** C8.  On the control string [-.x] the help routine skips the first
    entry and prints two blocks, for the second and the third entry of the
    table in that order: the long-only header and the description of the
    second, then the header with [-x] and the description of the third. *)
Theorem sam_global_opt_help_dash_dot_x (e0 e1 e2 : struct_option)
    (rest : list struct_option) (n1 n2 : string) (fp : string) :
  name e1 = Some n1 -> name e2 = Some n2 ->
  sam_global_opt_help (e0 :: e1 :: e2 :: rest) fp (Some (chars "-.x")) =
    Done (fp +:+ ("      --" +:+ help_text n1) +:+ ("  -x, --" +:+ help_text n2)).
Proof.
  intros H1 H2. unfold sam_global_opt_help. cbn [length help_loop].
  change (str_at (chars "-.x") 0) with (@Done ascii "-"%char). simpl.
  assert (Hlt1 : (0 + 1 <? Z.of_nat (S (S (S (length rest))))) = true).
  { apply Z.ltb_lt. lia. }
  assert (Hlt2 : (0 + 1 + 1 <? Z.of_nat (S (S (S (length rest))))) = true).
  { apply Z.ltb_lt. lia. }
  rewrite Hlt1, H1. simpl. rewrite Hlt2, H2. simpl.
  change (help_header ".") with "      --"%string.
  change (help_header "x") with "  -x, --"%string.
  by rewrite !string_app_assoc.
Qed.

Lemma sam_global_opt_help_dash_dot_x_witness :
  sam_global_opt_help SAM_GLOBAL_LOPTS_INIT "" (Some (chars "-.x")) =
    Done ("      --input-fmt-option OPT[=VAL]" ++ nl ++
          "               Specify a single input file format option in the form" ++ nl ++
          "               of OPTION or OPTION=VALUE" ++ nl ++
          "  -x, --output-fmt FORMAT[,OPT[=VAL]]..." ++ nl ++
          "               Specify output format (SAM, BAM, CRAM)" ++ nl)%string.
Proof.
  apply (sam_global_opt_help_dash_dot_x
           (opt "input-fmt" 1 0) (opt "input-fmt-option" 1 0) (opt "output-fmt" 1 0)
           [opt "output-fmt-option" 1 0; opt "verbose" 0 0; sentinel]
           "input-fmt-option" "output-fmt" "" eq_refl eq_refl).
Defined.

(** ** Initialisation *)

(** C9.  With a null pointer [sam_global_args_init] returns and the
    memory is as it was.  With a pointer to a settings object it returns
    and the object holds zero in every field: both formats all zero with no
    option list, the counter 0. *)
Theorem sam_global_args_init_zeroes (a : positive) (old : sam_global_args)
    (mem : gmap positive sam_global_args) :
  sam_global_args_init None mem = Done mem /\
  exists z : sam_global_args,
    sam_global_args_init (Some a) (<[a := old]> mem) = Done (<[a := z]> mem) /\
    verbosity z = 0 /\
    in_ z = {| category := 0; format := 0; version_major := 0;
               version_minor := 0; compression := 0; compression_level := 0;
               opts := [] |} /\
    out z = {| category := 0; format := 0; version_major := 0;
               version_minor := 0; compression := 0; compression_level := 0;
               opts := [] |}.
Proof.
  split; [done|]. exists zero_args. repeat split.
  unfold sam_global_args_init. rewrite lookup_insert_eq.
  by rewrite insert_insert_eq.
Qed.

(** ** Termination *)

Lemma remap_body_runs (s : list ascii) (st : remap_state) :
  remap_body s st <> OutOfFuel.
Proof.
  unfold remap_body, arr_get, arr_set, str_at.
  repeat (case_match; simpl; try done).
Qed.

Lemma remap_loop_runs (s : list ascii) (m : nat) :
  forall (i : nat) (st : remap_state) (fuel : nat),
    ci st = Z.of_nat i -> (i + m = length s)%nat -> (m < fuel)%nat ->
    remap_loop fuel (Some s) st <> OutOfFuel.
Proof.
  induction m as [|m IH]; intros i st fuel Hci Him Hfuel;
    (destruct fuel as [|fuel]; [lia|]); cbn [remap_loop remap_cond]; rewrite Hci.
  - assert (i = length s) as -> by lia. by rewrite str_at_end.
  - destruct (lookup_lt_is_Some_2 s i) as [c Hc]; [lia|].
    rewrite (str_at_char _ _ _ Hc). simpl.
    destruct (negb (Ascii.eqb c NUL)); [|done].
    destruct (remap_body s st) as [st'| |] eqn:Hbody; simpl; try done.
    + apply remap_body_Done in Hbody as (Hi & _).
      apply (IH (S i)); lia.
    + by apply remap_body_runs in Hbody.
Qed.

(** The loop of [assign_short_opts] is over within the steps its
    definition allows, for every table and every control string. *)
Theorem assign_short_opts_terminates (lopts : list struct_option)
    (shortopts : option (list ascii)) :
  assign_short_opts lopts shortopts <> OutOfFuel.
Proof.
  unfold assign_short_opts.
  destruct shortopts as [s|]; cbn [remap_fuel].
  - pose proof (remap_loop_runs s (length s) 0
                  {| ci := 0; cj := 0; tbl := lopts |} (S (length s))) as Hrun.
    destruct (remap_loop _ _ _) as [st| |]; simpl.
    + unfold arr_get, arr_set. repeat (case_match; simpl; try done).
    + done.
    + exfalso. apply Hrun; try done; simpl; lia.
  - simpl. unfold arr_get, arr_set. repeat (case_match; simpl; try done).
Qed.

Lemma help_loop_runs (lopts : list struct_option)
    (shortopts : option (list ascii)) (m : nat) :
  forall (i : nat) (fp : string) (fuel : nat),
    (i + m = length lopts)%nat -> (m < fuel)%nat ->
    help_loop fuel lopts shortopts (Z.of_nat i) fp <> OutOfFuel.
Proof.
  induction m as [|m IH]; intros i fp fuel Him Hfuel;
    (destruct fuel as [|fuel]; [lia|]); cbn [help_loop];
    (destruct shortopts as [s|]; [|done]);
    (destruct (str_at s (Z.of_nat i)) as [c| |] eqn:Hc;
       [|done|unfold str_at in Hc; repeat case_match; done]); simpl;
    (destruct (Ascii.eqb c NUL); [done|]).
  - destruct (Z.ltb_spec (Z.of_nat i) (Z.of_nat (length lopts))); [lia|done].
  - destruct (Z.ltb_spec (Z.of_nat i) (Z.of_nat (length lopts))); [|done]. simpl.
    replace (Z.of_nat i + 1) with (Z.of_nat (S i)) by lia.
    destruct (Ascii.eqb c "-"); [apply IH; lia|].
    rewrite arr_get_nat. destruct (lopts !! i) as [d|]; [|done]. simpl.
    destruct (name d); [apply IH; lia|done].
Qed.

(** The loop of [sam_global_opt_help] is over within the steps its
    definition allows, for every table and every control string. *)
Theorem sam_global_opt_help_terminates (lopts : list struct_option)
    (fp : string) (shortopts : option (list ascii)) :
  sam_global_opt_help lopts fp shortopts <> OutOfFuel.
Proof.
  unfold sam_global_opt_help. change 0 with (Z.of_nat 0).
  apply (help_loop_runs lopts shortopts (length lopts)); lia.
Qed.

(** On a table whose names are all among the five, the scan is over
    within one test per entry and one more: it stops at the entry carrying
    the code or at the terminating entry. *)
Lemma dispatch_loop_global_names `{Htslib} (pre : list struct_option)
    (sen : struct_option) (rest : list struct_option) (c : Z)
    (optarg : option string) :
  Forall (fun d => exists nm, name d = Some nm /\ is_global_name nm = true) pre ->
  name sen = None ->
  forall (n k : nat) (r : Z) (ga : sam_global_args) (fuel : nat),
    (k + n = length pre)%nat -> (n < fuel)%nat ->
    exists (k' : nat) (r' : Z) (ga' : sam_global_args),
      dispatch_loop fuel c optarg (pre ++ sen :: rest) (Z.of_nat k) r ga =
        Done (Z.of_nat k', r', ga') /\ (k' <= length pre)%nat.
Proof.
  intros Hpre Hsen n.
  induction n as [|n IH]; intros k r ga fuel Hk Hfuel;
    (destruct fuel as [|fuel]; [lia|]); cbn [dispatch_loop]; rewrite arr_get_nat.
  - assert (k = length pre) as -> by lia.
    rewrite list_lookup_middle by done. simpl. rewrite Hsen.
    exists (length pre), r, ga. split; [done|lia].
  - destruct (lookup_lt_is_Some_2 pre k) as [d Hd]; [lia|].
    destruct (proj1 (Forall_lookup _ pre) Hpre k d Hd) as (nm & Hnm & Hglob).
    rewrite (lookup_app_l_Some _ _ _ _ Hd). simpl. rewrite Hnm.
    destruct (negb (c =? val d)).
    { replace (Z.of_nat k + 1) with (Z.of_nat (S k)) by lia.
      destruct (IH (S k) r ga fuel) as (k' & r' & ga' & Hrun & Hk'); try lia.
      by exists k', r', ga'. }
    unfold is_global_name in Hglob.
    destruct (String.eqb nm "input-fmt").
    { destruct (hts_parse_opt_format _ _) as [r' f].
      eexists k, _, _. split; [done|lia]. }
    destruct (String.eqb nm "input-fmt-option").
    { destruct (hts_opt_add _ _) as [r' l].
      eexists k, _, _. split; [done|lia]. }
    destruct (String.eqb nm "output-fmt").
    { destruct (hts_parse_opt_format _ _) as [r' f].
      eexists k, _, _. split; [done|lia]. }
    destruct (String.eqb nm "output-fmt-option").
    { destruct (hts_opt_add _ _) as [r' l].
      eexists k, _, _. split; [done|lia]. }
    destruct (String.eqb nm "verbose"); [|done].
    eexists k, _, _. split; [done|lia].
Qed.

(** The dispatcher returns, for every code, on every table that ends with
    the terminating entry and names only the five global options. *)
Theorem parse_sam_global_opt_terminates `{Htslib} (fuel : nat) (c : Z)
    (optarg : option string) (pre : list struct_option) (sen : struct_option)
    (rest : list struct_option) (ga : sam_global_args) :
  Forall (fun d => exists nm, name d = Some nm /\ is_global_name nm = true) pre ->
  name sen = None ->
  (length pre < fuel)%nat ->
  exists (r : Z) (ga' : sam_global_args) (err : list stderr_event),
    parse_sam_global_opt fuel c optarg (pre ++ sen :: rest) ga = Done (r, ga', err).
Proof.
  intros Hpre Hsen Hfuel. unfold parse_sam_global_opt.
  destruct (dispatch_loop_global_names pre sen rest c optarg Hpre Hsen
              (length pre) 0 0 ga fuel) as (k' & r' & ga' & Hrun & Hk'); try lia.
  change 0 with (Z.of_nat 0) at 1. rewrite Hrun. simpl.
  rewrite arr_get_nat.
  destruct (lookup_lt_is_Some_2 (pre ++ sen :: rest) k') as [d Hd].
  { rewrite length_app. simpl. lia. }
  rewrite Hd. simpl. destruct (name d); by do 3 eexists.
Qed.

Lemma parse_sam_global_opt_terminates_witness :
  exists (r : Z) (ga' : sam_global_args) (err : list stderr_event),
    parse_sam_global_opt 4 79 (Some "bam"%string) opts_remapped zero_args =
      Done (r, ga', err).
Proof.
  apply (parse_sam_global_opt_terminates 4 79 (Some "bam"%string)
           [opt "input-fmt-option" 1 300; opt "output-fmt" 1 79; opt "verbose" 0 118]
           sentinel [sentinel] zero_args).
  - repeat (constructor; [by eexists|]); constructor.
  - reflexivity.
  - simpl. lia.
Defined.

(** The dispatcher does not return when the first entry carrying the code
    has a name outside the five. *)
Theorem parse_sam_global_opt_diverges `{Htslib} (fuel : nat) (c : Z)
    (optarg : option string) (pre : list struct_option) (e : struct_option)
    (post : list struct_option) (nm : string) (ga : sam_global_args) :
  Forall (fun d => is_Some (name d) /\ val d <> c) pre ->
  name e = Some nm -> val e = c -> is_global_name nm = false ->
  parse_sam_global_opt fuel c optarg (pre ++ e :: post) ga = OutOfFuel.
Proof.
  intros Hpre Hnm Hval Hglob. unfold parse_sam_global_opt.
  destruct (Nat.le_gt_cases fuel (length pre)) as [Hle|Hgt].
  - assert (Hout : forall (n k : nat) (r : Z),
              (k + n <= length pre)%nat ->
              dispatch_loop n c optarg (pre ++ e :: post) (Z.of_nat k) r ga = OutOfFuel).
    { induction n as [|n IH]; intros k r Hk; [done|].
      destruct (lookup_lt_is_Some_2 pre k) as [d Hd]; [lia|].
      destruct (proj1 (Forall_lookup _ pre) Hpre k d Hd) as [[nm' Hnm'] Hv].
      cbn [dispatch_loop].
      rewrite arr_get_nat, (lookup_app_l_Some _ _ _ _ Hd). simpl.
      rewrite Hnm'. destruct (Z.eqb_spec c (val d)) as [->|_]; [done|]. simpl.
      replace (Z.of_nat k + 1) with (Z.of_nat (S k)) by lia.
      apply IH. lia. }
    change 0 with (Z.of_nat 0) at 1. by rewrite Hout by lia.
  - replace fuel with (length pre + (fuel - length pre))%nat by lia.
    change 0 with (Z.of_nat 0) at 1.
    rewrite (dispatch_loop_skip pre (e :: post) c optarg 0 ga _ Hpre (length pre) 0)
      by lia.
    rewrite (dispatch_loop_unknown_name _ (length pre) e nm); try done.
    by apply list_lookup_middle.
Qed.

Lemma parse_sam_global_opt_diverges_witness :
  parse_sam_global_opt 1000 64 (Some "4"%string)
    [opt "verbose" 0 118; opt "threads" 1 64; sentinel] zero_args = OutOfFuel.
Proof.
  apply (parse_sam_global_opt_diverges 1000 64 (Some "4"%string)
           [opt "verbose" 0 118] (opt "threads" 1 64) [sentinel] "threads" zero_args).
  - repeat (constructor; [split; [by eexists|done]|]); constructor.
  - reflexivity.
  - reflexivity.
  - reflexivity.
Defined.

(** * Further properties of the code *)

(** ** assign_short_opts beyond the compacted prefix *)

(** The run of [assign_short_opts] on a control string that ends before
    the array does, with what it leaves in front of and behind index [|s|]. *)
Lemma assign_short_opts_in_bounds (t : list struct_option) (s : list ascii) :
  NUL ∉ s -> (length s < length t)%nat ->
  exists t' : list struct_option,
    assign_short_opts t (Some s) = Done t' /\
    length t' = length t /\
    drop (length s) t' = drop (length s) t /\
    take (length s - count_dash s) t' = compacted s t.
Proof.
  intros Hnul Hlen.
  destruct (remap_loop_run s t Hnul Hlen (length s) 0 0 t (S (length s)))
    as (j' & T' & Hrun & Hj' & HT' & Hd' & Htake & Hjv); try done; try lia.
  rewrite take_0, !drop_0 in Htake. rewrite !drop_0 in Hjv.
  simpl in Htake, Hjv.
  destruct (lookup_lt_is_Some_2 t (length s)) as [e He]; [lia|].
  assert (HTe : T' !! length s = Some e).
  { rewrite <- He, <- (Nat.add_0_r (length s)), <- !lookup_drop. by rewrite Hd'. }
  assert (Hk : j' = (length s - count_dash s)%nat).
  { rewrite Hjv. apply compacted_length. lia. }
  unfold assign_short_opts. cbn [remap_fuel].
  change 0 with (Z.of_nat 0). rewrite Hrun.
  cbn [mbind outcome_bind ci cj tbl].
  rewrite arr_get_nat, HTe. simpl.
  rewrite arr_set_nat by lia. simpl.
  eexists. split; [done|]. rewrite length_insert. split; [done|]. split.
  - destruct (decide (j' = length s)) as [->|Hne].
    + by rewrite list_insert_id.
    + rewrite drop_insert_lt by lia. done.
  - rewrite <- Hk. by rewrite take_insert_ge by lia.
Qed.

(** A control string that stops inside the array: the array keeps its
    length, the entries from index [|s|] on are never written, and the
    first [|s|] minus the number of [-] entries are the compacted
    descriptors. *)
Theorem assign_short_opts_frame (t : list struct_option) (s : list ascii) :
  NUL ∉ s -> (length s < length t)%nat ->
  exists t' : list struct_option,
    assign_short_opts t (Some s) = Done t' /\
    length t' = length t /\
    drop (length s) t' = drop (length s) t /\
    take (length s - count_dash s) t' = compacted s t.
Proof. apply assign_short_opts_in_bounds. Qed.

Lemma assign_short_opts_frame_witness :
  exists t' : list struct_option,
    assign_short_opts opts_remapped (Some (chars "-x")) = Done t' /\
    length t' = length opts_remapped /\
    drop 2 t' = drop 2 opts_remapped /\
    take (2 - count_dash (chars "-x")) t' = compacted (chars "-x") opts_remapped.
Proof.
  apply (assign_short_opts_frame opts_remapped (chars "-x")).
  - intros Hin. repeat (apply elem_of_cons in Hin as [Hin|Hin]; [discriminate|]).
    by apply elem_of_nil in Hin.
  - simpl. lia.
Defined.

(** The loop on a control string with at least as many characters as the
    array has entries: it leaves the array or stops with [i] at its end. *)
Lemma remap_loop_overrun (s : list ascii) (t : list struct_option) :
  NUL ∉ s -> (length t <= length s)%nat ->
  forall (m i j : nat) (T : list struct_option) (fuel : nat),
    (i + m = length t)%nat -> (j <= i)%nat ->
    length T = length t -> drop i T = drop i t -> (m < fuel)%nat ->
    remap_loop fuel (Some s)
      {| ci := Z.of_nat i; cj := Z.of_nat j; tbl := T |} = Undefined \/
    exists (j' : nat) (T' : list struct_option),
      remap_loop fuel (Some s)
        {| ci := Z.of_nat i; cj := Z.of_nat j; tbl := T |} =
        Done {| ci := Z.of_nat (length t); cj := Z.of_nat j'; tbl := T' |} /\
      length T' = length t.
Proof.
  intros Hnul Hlen m.
  induction m as [|m IH]; intros i j T fuel Him Hji HT Hd Hfuel;
    (destruct fuel as [|fuel]; [lia|]); cbn [remap_loop remap_cond ci].
  - assert (i = length t) as -> by lia.
    destruct (decide (length s = length t)) as [Heq|Hne].
    + right. exists j, T. rewrite <- Heq, str_at_end. simpl.
      split; [done|lia].
    + left. destruct (lookup_lt_is_Some_2 s (length t)) as [c Hc]; [lia|].
      rewrite (str_at_char _ _ _ Hc). simpl.
      assert (Hcn : c <> NUL).
      { intros ->. apply Hnul. by eapply list_elem_of_lookup_2. }
      destruct (Ascii.eqb_spec c NUL) as [|_]; [done|]. simpl.
      unfold remap_body. cbn [ci cj tbl].
      rewrite arr_get_nat, (lookup_ge_None_2 T (length t)) by lia. done.
  - destruct (lookup_lt_is_Some_2 s i) as [c Hc]; [lia|].
    destruct (lookup_lt_is_Some_2 t i) as [e He]; [lia|].
    rewrite (str_at_char _ _ _ Hc). simpl.
    assert (Hcn : c <> NUL).
    { intros ->. apply Hnul. by eapply list_elem_of_lookup_2. }
    destruct (Ascii.eqb_spec c NUL) as [|_]; [done|]. simpl.
    destruct (remap_body_run s t T i j c e Hc He Hji HT Hd)
      as (j1 & T1 & -> & Hj1 & HT1 & Hd1 & _ & _).
    simpl. apply (IH (S i) j1 T1 fuel); try done; lia.
Qed.

(** A control string with as many characters as the array has entries,
    terminating entry included, or more, takes [assign_short_opts]
    outside the array. *)
Theorem assign_short_opts_overrun (t : list struct_option) (s : list ascii) :
  NUL ∉ s -> (length t <= length s)%nat ->
  assign_short_opts t (Some s) = Undefined.
Proof.
  intros Hnul Hlen. unfold assign_short_opts. cbn [remap_fuel].
  change 0 with (Z.of_nat 0).
  destruct (remap_loop_overrun s t Hnul Hlen (length t) 0 0 t (S (length s)))
    as [->|(j' & T' & -> & HT')]; try done; try lia.
  cbn [mbind outcome_bind ci cj tbl].
  by rewrite arr_get_nat, (lookup_ge_None_2 T' (length t)) by lia.
Qed.

Lemma assign_short_opts_overrun_witness :
  assign_short_opts opts_ab (Some (chars "i.v")) = Undefined.
Proof.
  apply (assign_short_opts_overrun opts_ab (chars "i.v")).
  - intros Hin. repeat (apply elem_of_cons in Hin as [Hin|Hin]; [discriminate|]).
    by apply elem_of_nil in Hin.
  - simpl. lia.
Defined.

Lemma compacted_dots (n : nat) (t : list struct_option) :
  compacted (replicate n "."%char) t = take n t.
Proof.
  revert t. induction n as [|n IH]; intros [|d t]; try done.
  simpl. rewrite compacted_cons, IH. done.
Qed.

Lemma count_dash_dots (n : nat) : count_dash (replicate n "."%char) = 0%nat.
Proof.
  unfold count_dash. induction n as [|n IH]; [done|].
  simpl. by rewrite filter_cons, decide_False.
Qed.

(** A control string of [.] only, shorter than the array, enables every
    option it reaches with the code it had: the table is returned as it
    was. *)
Theorem assign_short_opts_dots (t : list struct_option) (n : nat) :
  (n < length t)%nat ->
  assign_short_opts t (Some (replicate n "."%char)) = Done t.
Proof.
  intros Hn.
  destruct (assign_short_opts_in_bounds t (replicate n "."%char))
    as (t' & -> & Hlen & Hdrop & Htake).
  { intros [Heq _]%elem_of_replicate. discriminate. }
  { by rewrite length_replicate. }
  rewrite length_replicate in Hdrop, Htake.
  rewrite count_dash_dots, Nat.sub_0_r, compacted_dots in Htake.
  f_equal. by rewrite <- (take_drop n t'), Htake, Hdrop, take_drop.
Qed.

Lemma assign_short_opts_dots_witness :
  assign_short_opts SAM_GLOBAL_LOPTS_INIT (Some (replicate 5 "."%char)) =
    Done SAM_GLOBAL_LOPTS_INIT.
Proof.
  apply (assign_short_opts_dots SAM_GLOBAL_LOPTS_INIT 5). simpl. lia.
Defined.

Lemma relabel_key_fields (c : ascii) (d : struct_option) :
  opt_key_fields (relabel c d) = opt_key_fields d.
Proof. unfold relabel. by destruct (Ascii.eqb c "."). Qed.

Lemma compacted_sublist (s : list ascii) (t : list struct_option) :
  (opt_key_fields <$> compacted s t) `sublist_of` (opt_key_fields <$> t).
Proof.
  revert t. induction s as [|c s IH]; intros [|d t];
    rewrite ?compacted_nil_r; try apply sublist_nil_l.
  rewrite compacted_cons. destruct (Ascii.eqb c "-"); simpl.
  - by apply sublist_cons.
  - rewrite relabel_key_fields. by apply sublist_skip.
Qed.

(** [assign_short_opts] only drops descriptors and rewrites [val]: the
    names, argument flags and [flag] pointers of the active table it
    leaves are those of the original descriptors, in their order, with
    none invented, repeated or moved. *)
Theorem assign_short_opts_keeps_fields (descs : list struct_option)
    (sen : struct_option) (rest : list struct_option) (s : list ascii) :
  Forall (fun d => is_Some (name d)) descs -> name sen = None ->
  NUL ∉ s -> length s = length descs ->
  exists t' : list struct_option,
    assign_short_opts (descs ++ sen :: rest) (Some s) = Done t' /\
    (opt_key_fields <$> active t') `sublist_of` (opt_key_fields <$> descs).
Proof.
  intros Hdescs Hsen Hnul Hlen.
  destruct (assign_short_opts_run (descs ++ sen :: rest) s sen Hnul)
    as (junk & Hrun & _).
  { rewrite Hlen. by apply list_lookup_middle. }
  eexists. split; [exact Hrun|].
  assert (Hc : compacted s (descs ++ sen :: rest) = compacted s descs).
  { by rewrite compacted_take, Hlen, take_app_length. }
  rewrite Hc, active_app_sentinel by (by apply compacted_named || done).
  apply compacted_sublist.
Qed.

Lemma assign_short_opts_keeps_fields_witness :
  exists t' : list struct_option,
    assign_short_opts opts_ab (Some (chars "-v")) = Done t' /\
    (opt_key_fields <$> active t') `sublist_of`
      (opt_key_fields <$> [opt "input-fmt" 1 300; opt "verbose" 0 301]).
Proof.
  apply (assign_short_opts_keeps_fields
           [opt "input-fmt" 1 300; opt "verbose" 0 301] sentinel [] (chars "-v")).
  - repeat (constructor; [by eexists|]); constructor.
  - reflexivity.
  - intros Hin. repeat (apply elem_of_cons in Hin as [Hin|Hin]; [discriminate|]).
    by apply elem_of_nil in Hin.
  - reflexivity.
Defined.

(** ** Remapping, then dispatching *)

(** The table is remapped with one character per descriptor, and the
    control string gives the letter [c] to the descriptor named [verbose];
    no descriptor kept before it ends up with the code of [c].  Then the
    dispatcher, called on the remapped table with the code of [c], counts
    the verbosity up by one and returns 0. *)
Theorem remap_then_dispatch_verbose `{Htslib} (descs : list struct_option)
    (sen : struct_option) (rest : list struct_option) (s : list ascii)
    (i : nat) (c : ascii) (d : struct_option) (fuel : nat)
    (optarg : option string) (ga : sam_global_args) :
  Forall (fun d => is_Some (name d)) descs -> name sen = None ->
  NUL ∉ s -> length s = length descs ->
  s !! i = Some c -> c <> "-"%char -> c <> "."%char ->
  descs !! i = Some d -> name d = Some "verbose"%string ->
  Forall (fun d' => val d' <> int_of_char c)
         (compacted (take i s) (take i descs)) ->
  (length s < fuel)%nat ->
  exists t' : list struct_option,
    assign_short_opts (descs ++ sen :: rest) (Some s) = Done t' /\
    parse_sam_global_opt fuel (int_of_char c) optarg t' ga =
      Done (0, set_verbosity ga (int_wrap (verbosity ga + 1)), []).
Proof.
  intros Hdescs Hsen Hnul Hlen Hc Hdash Hdot Hd Hnm Hpre Hfuel.
  destruct (assign_short_opts_run (descs ++ sen :: rest) s sen Hnul)
    as (junk & Hrun & _).
  { rewrite Hlen. by apply list_lookup_middle. }
  eexists. split; [exact Hrun|].
  assert (Hcm : compacted s (descs ++ sen :: rest) = compacted s descs).
  { by rewrite compacted_take, Hlen, take_app_length. }
  assert (Hil : (i < length s)%nat) by (by eapply lookup_lt_Some).
  assert (Hsplit : compacted s descs =
            compacted (take i s) (take i descs) ++
            set_val d (int_of_char c) :: compacted (drop (S i) s) (drop (S i) descs)).
  { rewrite <- (take_drop_middle s i c Hc), <- (take_drop_middle descs i d Hd) at 1.
    rewrite compacted_app by (rewrite !length_take; lia).
    rewrite compacted_cons. unfold relabel.
    destruct (Ascii.eqb_spec c "-") as [|_]; [done|].
    destruct (Ascii.eqb_spec c ".") as [|_]; [done|]. done. }
  rewrite Hcm, Hsplit, <- app_assoc. simpl.
  apply parse_sam_global_opt_verbose; try done.
  - apply Forall_and. split; [|done].
    apply compacted_named. by apply Forall_take.
  - pose proof (compacted_length (take i s) (take i descs)) as Hl.
    rewrite !length_take in Hl. lia.
Qed.

Lemma remap_then_dispatch_verbose_witness :
  exists t' : list struct_option,
    assign_short_opts opts_ab (Some (chars ".v")) = Done t' /\
    parse_sam_global_opt 3 118 None t' zero_args =
      Done (0, set_verbosity zero_args (int_wrap (verbosity zero_args + 1)), []).
Proof.
  apply (remap_then_dispatch_verbose
           [opt "input-fmt" 1 300; opt "verbose" 0 301] sentinel []
           (chars ".v") 1 "v"%char (opt "verbose" 0 301) 3 None zero_args).
  - repeat (constructor; [by eexists|]); constructor.
  - reflexivity.
  - intros Hin. repeat (apply elem_of_cons in Hin as [Hin|Hin]; [discriminate|]).
    by apply elem_of_nil in Hin.
  - reflexivity.
  - reflexivity.
  - discriminate.
  - discriminate.
  - reflexivity.
  - reflexivity.
  - repeat (constructor; [done|]); constructor.
  - simpl. lia.
Defined.

(** ** What the dispatcher reads and what it changes *)

Section DispatchLocal.
Context `{Htslib}.
Variables (c : Z) (optarg : option string).
Variables (pre : list struct_option) (e : struct_option).
Hypothesis He : name e = None \/ val e = c.

(** The scan never moves past [e]. *)
Lemma dispatch_loop_stays (post : list struct_option) (fuel : nat) :
  forall (k : nat) (r : Z) (ga : sam_global_args) (k' r' : Z)
         (ga' : sam_global_args),
    (k <= length pre)%nat ->
    dispatch_loop fuel c optarg (pre ++ e :: post) (Z.of_nat k) r ga =
      Done (k', r', ga') ->
    exists kn : nat, k' = Z.of_nat kn /\ (kn <= length pre)%nat.
Proof.
  induction fuel as [|fuel IH]; intros k r ga k' r' ga' Hk Hrun; [done|].
  cbn [dispatch_loop] in Hrun. rewrite arr_get_nat in Hrun.
  destruct (decide (k = length pre)) as [->|Hne].
  - rewrite list_lookup_middle in Hrun by done. simpl in Hrun.
    destruct (name e) as [nm|] eqn:Hnm.
    + destruct He as [|Hv]; [done|]. rewrite Hv, Z.eqb_refl in Hrun.
      simpl in Hrun.
      repeat (case_match; simplify_eq; try by (eexists; split; [done|lia])).
      by eapply IH.
    + simplify_eq. by eexists.
  - destruct (lookup_lt_is_Some_2 pre k) as [d Hd]; [lia|].
    rewrite (lookup_app_l_Some _ _ _ _ Hd) in Hrun. simpl in Hrun.
    replace (Z.of_nat k + 1) with (Z.of_nat (S k)) in Hrun by lia.
    repeat (case_match; simplify_eq; try by (eexists; split; [done|lia]));
      (eapply IH; [|done]; lia).
Qed.

(** What follows [e] in the table has no part in the scan. *)
Lemma dispatch_loop_local (post post' : list struct_option) (fuel : nat) :
  forall (k : nat) (r : Z) (ga : sam_global_args),
    (k <= length pre)%nat ->
    dispatch_loop fuel c optarg (pre ++ e :: post) (Z.of_nat k) r ga =
    dispatch_loop fuel c optarg (pre ++ e :: post') (Z.of_nat k) r ga.
Proof.
  induction fuel as [|fuel IH]; intros k r ga Hk; [done|].
  cbn [dispatch_loop]. rewrite !arr_get_nat.
  destruct (decide (k = length pre)) as [->|Hne].
  - rewrite !list_lookup_middle by done. simpl.
    destruct (name e) as [nm|] eqn:Hnm; [|done].
    destruct He as [|Hv]; [congruence|]. rewrite Hv, Z.eqb_refl. simpl.
    repeat (case_match; try done). by apply IH.
  - destruct (lookup_lt_is_Some_2 pre k) as [d Hd]; [lia|].
    rewrite !(lookup_app_l_Some _ _ _ _ Hd). simpl.
    destruct (name d); [|done].
    replace (Z.of_nat k + 1) with (Z.of_nat (S k)) by lia.
    repeat (case_match; try done); apply IH; lia.
Qed.
End DispatchLocal.

(** Whatever stands in the table behind an entry that is the terminating
    one or carries the code is never read: the result of the dispatcher is
    the same with any other entries in its place. *)
Theorem parse_sam_global_opt_local `{Htslib} (fuel : nat) (c : Z)
    (optarg : option string) (pre : list struct_option) (e : struct_option)
    (post post' : list struct_option) (ga : sam_global_args) :
  name e = None \/ val e = c ->
  parse_sam_global_opt fuel c optarg (pre ++ e :: post) ga =
  parse_sam_global_opt fuel c optarg (pre ++ e :: post') ga.
Proof.
  intros He. unfold parse_sam_global_opt.
  change 0 with (Z.of_nat 0) at 1 3.
  rewrite (dispatch_loop_local c optarg pre e He post post') by lia.
  destruct (dispatch_loop fuel c optarg (pre ++ e :: post') (Z.of_nat 0) 0 ga)
    as [[[k' r'] ga']| |] eqn:Hrun; try done.
  apply (dispatch_loop_stays c optarg pre e He) in Hrun as (kn & -> & Hkn);
    [|lia].
  cbn [mbind outcome_bind]. rewrite !arr_get_nat.
  destruct (decide (kn = length pre)) as [->|Hne].
  - by rewrite !list_lookup_middle.
  - destruct (lookup_lt_is_Some_2 pre kn) as [d Hd]; [lia|].
    by rewrite !(lookup_app_l_Some _ _ _ _ Hd).
Qed.

Lemma parse_sam_global_opt_local_witness :
  parse_sam_global_opt 4 79 (Some "bam"%string) opts_remapped zero_args =
  parse_sam_global_opt 4 79 (Some "bam"%string)
    [opt "input-fmt-option" 1 300; opt "output-fmt" 1 79; opt "threads" 1 79]
    zero_args.
Proof.
  apply (parse_sam_global_opt_local 4 79 (Some "bam"%string)
           [opt "input-fmt-option" 1 300] (opt "output-fmt" 1 79)
           [opt "verbose" 0 118; sentinel; sentinel] [opt "threads" 1 79] zero_args).
  by right.
Defined.

(** A scan that is left at an entry without a name was left by the test
    of the loop: no branch has run. *)
Lemma dispatch_loop_left_by_test `{Htslib} (c : Z) (optarg : option string)
    (lopts : list struct_option) (fuel : nat) :
  forall (k r : Z) (ga : sam_global_args) (k' r' : Z) (ga' : sam_global_args)
         (d : struct_option),
    dispatch_loop fuel c optarg lopts k r ga = Done (k', r', ga') ->
    arr_get lopts k' = Done d -> name d = None ->
    r' = r /\ ga' = ga.
Proof.
  induction fuel as [|fuel IH]; intros k r ga k' r' ga' d Hrun Hd Hnm; [done|].
  cbn [dispatch_loop] in Hrun.
  apply bind_Done in Hrun as (d0 & Hd0 & Hrun).
  destruct (name d0) as [nm|] eqn:Hnm0; [|by simplify_eq].
  repeat (case_match; simplify_eq; try congruence); by eapply IH.
Qed.

(** The message on [stderr] comes with -1 and with the settings as they
    were passed in, and only so: the dispatcher never reports an error
    after it has changed the settings. *)
Theorem parse_sam_global_opt_message_only_unchanged `{Htslib} (fuel : nat)
    (c : Z) (optarg : option string) (lopt : list struct_option)
    (ga ga' : sam_global_args) (r : Z) (err : list stderr_event) :
  parse_sam_global_opt fuel c optarg lopt ga = Done (r, ga', err) ->
  err <> [] ->
  r = -1 /\ ga' = ga /\ err = [Unexpected_global_option None].
Proof.
  unfold parse_sam_global_opt. intros Hrun Herr.
  apply bind_Done in Hrun as ([[k' r'] ga1] & Hloop & Hrun).
  apply bind_Done in Hrun as (d & Hd & Hrun).
  destruct (name d) eqn:Hnm; simplify_eq; try done.
  destruct (dispatch_loop_left_by_test _ _ _ _ _ _ _ _ _ _ _ Hloop Hd Hnm)
    as [_ ->].
  done.
Qed.

Lemma parse_sam_global_opt_message_only_unchanged_witness :
  -1 = -1 /\ args_with_level = args_with_level /\
  [Unexpected_global_option None] = [Unexpected_global_option None].
Proof.
  apply (parse_sam_global_opt_message_only_unchanged 4 122 None opts_remapped
           args_with_level args_with_level (-1) [Unexpected_global_option None]).
  - reflexivity.
  - discriminate.
Defined.




(** The code of [verbose] dispatched [n] times in a row: every call
    returns 0 and the counter ends [n] higher, as long as that stays
    within [int]. *)
Theorem dispatch_times_verbose `{Htslib} (n : nat) (fuel : nat) (c : Z)
    (optarg : option string) (pre : list struct_option) (e : struct_option)
    (post : list struct_option) (ga : sam_global_args) :
  Forall (fun d => is_Some (name d) /\ val d <> c) pre ->
  name e = Some "verbose"%string -> val e = c ->
  INT_MIN <= verbosity ga -> verbosity ga + Z.of_nat n <= INT_MAX ->
  (length pre < fuel)%nat ->
  dispatch_times n fuel c optarg (pre ++ e :: post) ga =
    Done (replicate n 0, set_verbosity ga (verbosity ga + Z.of_nat n)).
Proof.
  intros Hpre Hnm Hval. revert ga.
  induction n as [|n IH]; intros ga Hlo Hhi Hfuel; cbn [dispatch_times].
  - simpl. rewrite Z.add_0_r. by destruct ga.
  - rewrite (parse_sam_global_opt_verbose fuel c optarg pre e post) by done.
    cbn [mbind outcome_bind].
    rewrite int_wrap_id by lia.
    rewrite IH; cbn [verbosity set_verbosity]; try lia.
    cbn [mbind outcome_bind replicate in_ out]. do 2 f_equal.
    unfold set_verbosity. cbn [in_ out verbosity]. f_equal. lia.
Qed.

Lemma dispatch_times_verbose_witness :
  dispatch_times 5 4 118 None opts_remapped args_with_level =
    Done (replicate 5 0, set_verbosity args_with_level (2 + Z.of_nat 5)).
Proof.
  apply (dispatch_times_verbose 5 4 118 None
           [opt "input-fmt-option" 1 300; opt "output-fmt" 1 79]
           (opt "verbose" 0 118) [sentinel; sentinel] args_with_level).
  - repeat (constructor; [split; [by eexists|done]|]); constructor.
  - reflexivity.
  - reflexivity.
  - vm_compute. discriminate.
  - vm_compute. discriminate.
  - simpl. lia.
Defined.

(** Dispatching [input-fmt]: the input format and the argument go to
    [hts_parse_opt_format]; its status is returned as it is, success or
    not, what it left in the format is stored, nothing is written to
    [stderr], and the output format and the counter are untouched. *)
Theorem parse_sam_global_opt_input_fmt `{Htslib} (fuel : nat) (c : Z)
    (optarg : option string) (pre : list struct_option) (e : struct_option)
    (post : list struct_option) (ga : sam_global_args) :
  Forall (fun d => is_Some (name d) /\ val d <> c) pre ->
  name e = Some "input-fmt"%string -> val e = c ->
  (length pre < fuel)%nat ->
  exists ga' : sam_global_args,
    parse_sam_global_opt fuel c optarg (pre ++ e :: post) ga =
      Done ((hts_parse_opt_format (in_ ga) optarg).1, ga', []) /\
    in_ ga' = (hts_parse_opt_format (in_ ga) optarg).2 /\
    out ga' = out ga /\ verbosity ga' = verbosity ga.
Proof.
  intros Hpre Hnm Hval Hfuel. unfold parse_sam_global_opt.
  replace fuel with (length pre + S (fuel - length pre - 1))%nat by lia.
  change 0 with (Z.of_nat 0) at 1.
  rewrite (dispatch_loop_skip pre (e :: post) c _ 0 ga _ Hpre (length pre) 0)
    by lia.
  cbn [dispatch_loop].
  rewrite arr_get_nat, list_lookup_middle by done. simpl.
  rewrite Hnm, Hval, Z.eqb_refl. simpl.
  destruct (hts_parse_opt_format (in_ ga) optarg) as [r' f]. simpl.
  rewrite arr_get_nat, list_lookup_middle by done. simpl.
  rewrite Hnm. by eexists.
Qed.

Lemma parse_sam_global_opt_input_fmt_witness :
  exists ga' : sam_global_args,
    parse_sam_global_opt 2 105 None
      [opt "input-fmt" 1 105; sentinel] args_with_level =
      Done ((hts_parse_opt_format (in_ args_with_level) None).1, ga', []) /\
    in_ ga' = (hts_parse_opt_format (in_ args_with_level) None).2 /\
    out ga' = out args_with_level /\ verbosity ga' = verbosity args_with_level.
Proof.
  apply (parse_sam_global_opt_input_fmt 2 105 None []
           (opt "input-fmt" 1 105) [sentinel] args_with_level).
  - constructor.
  - reflexivity.
  - reflexivity.
  - simpl. lia.
Defined.

(** Dispatching [output-fmt-option]: only the option list of the output
    format goes to [hts_opt_add]; its status is returned as it is and its
    list stored, while the other fields of the output format, the input
    format and the counter are untouched. *)
Theorem parse_sam_global_opt_output_fmt_option `{Htslib} (fuel : nat) (c : Z)
    (optarg : option string) (pre : list struct_option) (e : struct_option)
    (post : list struct_option) (ga : sam_global_args) :
  Forall (fun d => is_Some (name d) /\ val d <> c) pre ->
  name e = Some "output-fmt-option"%string -> val e = c ->
  (length pre < fuel)%nat ->
  exists ga' : sam_global_args,
    parse_sam_global_opt fuel c optarg (pre ++ e :: post) ga =
      Done ((hts_opt_add (opts (out ga)) optarg).1, ga', []) /\
    out ga' = set_opts (out ga) (hts_opt_add (opts (out ga)) optarg).2 /\
    in_ ga' = in_ ga /\ verbosity ga' = verbosity ga.
Proof.
  intros Hpre Hnm Hval Hfuel. unfold parse_sam_global_opt.
  replace fuel with (length pre + S (fuel - length pre - 1))%nat by lia.
  change 0 with (Z.of_nat 0) at 1.
  rewrite (dispatch_loop_skip pre (e :: post) c _ 0 ga _ Hpre (length pre) 0)
    by lia.
  cbn [dispatch_loop].
  rewrite arr_get_nat, list_lookup_middle by done. simpl.
  rewrite Hnm, Hval, Z.eqb_refl. simpl.
  destruct (hts_opt_add (opts (out ga)) optarg) as [r' l]. simpl.
  rewrite arr_get_nat, list_lookup_middle by done. simpl.
  rewrite Hnm. by eexists.
Qed.

Lemma parse_sam_global_opt_output_fmt_option_witness :
  exists ga' : sam_global_args,
    parse_sam_global_opt 2 111 None
      [opt "output-fmt-option" 1 111; sentinel] args_with_level =
      Done ((hts_opt_add (opts (out args_with_level)) None).1, ga', []) /\
    out ga' = set_opts (out args_with_level)
                (hts_opt_add (opts (out args_with_level)) None).2 /\
    in_ ga' = in_ args_with_level /\ verbosity ga' = verbosity args_with_level.
Proof.
  apply (parse_sam_global_opt_output_fmt_option 2 111 None []
           (opt "output-fmt-option" 1 111) [sentinel] args_with_level).
  - constructor.
  - reflexivity.
  - reflexivity.
  - simpl. lia.
Defined.

(** ** The help text for any control string *)

Lemma string_app_empty_r (s : string) : s +:+ EmptyString = s.
Proof.
  induction s as [|c s IH]; [done|].
  change (String c (s +:+ EmptyString) = String c s). by f_equal.
Qed.

Lemma help_blocks_cons (c : ascii) (s : list ascii) (d : struct_option)
    (t : list struct_option) :
  help_blocks (c :: s) (d :: t) =
  if Ascii.eqb c "-" then help_blocks s t
  else help_block (c, d) +:+ help_blocks s t.
Proof.
  unfold help_blocks. simpl. rewrite filter_cons. simpl.
  destruct (Ascii.eqb_spec c "-") as [->|Hc].
  - by rewrite decide_False by (intros Hn; by apply Hn).
  - by rewrite decide_True by done.
Qed.

Lemma help_blocks_nil_r (s : list ascii) : help_blocks s [] = EmptyString.
Proof. by destruct s. Qed.

Lemma help_blocks_take (s : list ascii) (t : list struct_option) :
  help_blocks s t = help_blocks s (take (length s) t).
Proof.
  revert t. induction s as [|c s IH]; intros [|d t]; try done.
  simpl. by rewrite !help_blocks_cons, IH.
Qed.

(** Over descriptors that have a name the loop prints a block for every
    character other than [-] and goes on, one step per character. *)
Lemma help_loop_skip (descs tl : list struct_option) (s : list ascii) :
  Forall (fun d => is_Some (name d)) descs ->
  NUL ∉ s -> (length descs <= length s)%nat ->
  forall (m i : nat) (fp : string) (f : nat),
    (i + m = length descs)%nat ->
    help_loop (m + f) (descs ++ tl) (Some s) (Z.of_nat i) fp =
    help_loop f (descs ++ tl) (Some s) (Z.of_nat (length descs))
      (fp +:+ help_blocks (drop i (take (length descs) s)) (drop i descs)).
Proof.
  intros Hdescs Hnul Hlen m.
  induction m as [|m IH]; intros i fp f Him.
  - assert (i = length descs) as -> by lia.
    rewrite drop_all, help_blocks_nil_r. simpl.
    by rewrite string_app_empty_r.
  - destruct (lookup_lt_is_Some_2 s i) as [c Hc]; [lia|].
    destruct (lookup_lt_is_Some_2 descs i) as [d Hd]; [lia|].
    destruct (proj1 (Forall_lookup _ descs) Hdescs i d Hd) as [nm Hnm].
    assert (Hcn : c <> NUL).
    { intros ->. apply Hnul. by eapply list_elem_of_lookup_2. }
    assert (Hct : take (length descs) s !! i = Some c).
    { rewrite lookup_take_lt by lia. done. }
    cbn [Nat.add help_loop].
    rewrite (str_at_char _ _ _ Hc). simpl.
    destruct (Ascii.eqb_spec c NUL) as [|_]; [done|].
    destruct (Z.ltb_spec (Z.of_nat i) (Z.of_nat (length (descs ++ tl))));
      [|rewrite length_app in *; lia].
    simpl. replace (Z.of_nat i + 1) with (Z.of_nat (S i)) by lia.
    rewrite (drop_S _ c i Hct), (drop_S _ d i Hd), help_blocks_cons.
    destruct (Ascii.eqb c "-").
    + apply IH. lia.
    + rewrite arr_get_nat, (lookup_app_l_Some _ _ _ _ Hd). simpl. rewrite Hnm.
      rewrite IH by lia. unfold help_block. simpl. rewrite Hnm. simpl.
      by rewrite !string_app_assoc.
Qed.

(** For a control string no longer than the descriptors that have a name,
    [sam_global_opt_help] appends to the stream one block for each
    character other than [-], in the order of the table, each made of the
    header for that character and the description of the descriptor at the
    same index, and nothing else. *)
Theorem sam_global_opt_help_blocks (descs rest : list struct_option)
    (s : list ascii) (fp : string) :
  Forall (fun d => is_Some (name d)) descs ->
  NUL ∉ s -> (length s <= length descs)%nat ->
  sam_global_opt_help (descs ++ rest) fp (Some s) =
    Done (fp +:+ help_blocks s descs).
Proof.
  intros Hdescs Hnul Hlen. unfold sam_global_opt_help.
  rewrite <- (take_drop (length s) descs) at 1 2.
  rewrite <- app_assoc.
  assert (Hl : length (take (length s) descs) = length s).
  { rewrite length_take. lia. }
  replace (S (length (take (length s) descs ++ drop (length s) descs ++ rest)))
    with (length (take (length s) descs) +
          S (length (drop (length s) descs ++ rest)))%nat
    by (rewrite !length_app; lia).
  change 0 with (Z.of_nat 0).
  rewrite help_loop_skip; try done; try lia.
  - rewrite Hl, !drop_0, firstn_all. cbn [help_loop].
    rewrite str_at_end. simpl. by rewrite <- help_blocks_take.
  - by apply Forall_take.
Qed.

Lemma sam_global_opt_help_blocks_witness :
  sam_global_opt_help SAM_GLOBAL_LOPTS_INIT "usage:" (Some (chars "-.O-v")) =
    Done ("usage:" +:+
          help_blocks (chars "-.O-v")
            [ opt "input-fmt" 1 0; opt "input-fmt-option" 1 0;
              opt "output-fmt" 1 0; opt "output-fmt-option" 1 0;
              opt "verbose" 0 0 ]).
Proof.
  apply (sam_global_opt_help_blocks
           [ opt "input-fmt" 1 0; opt "input-fmt-option" 1 0;
             opt "output-fmt" 1 0; opt "output-fmt-option" 1 0;
             opt "verbose" 0 0 ] [sentinel] (chars "-.O-v") "usage:").
  - repeat (constructor; [by eexists|]); constructor.
  - intros Hin. repeat (apply elem_of_cons in Hin as [Hin|Hin]; [discriminate|]).
    by apply elem_of_nil in Hin.
  - simpl. lia.
Defined.

(** The bound [nopts] of the help loop counts the terminating entry.  A
    control string that reaches it with a character other than [-] makes
    the routine hand the null [name] to [strcmp]. *)
Theorem sam_global_opt_help_reaches_terminator (descs : list struct_option)
    (sen : struct_option) (rest : list struct_option) (s : list ascii)
    (c : ascii) (fp : string) :
  Forall (fun d => is_Some (name d)) descs -> name sen = None ->
  NUL ∉ s -> s !! length descs = Some c -> c <> "-"%char ->
  sam_global_opt_help (descs ++ sen :: rest) fp (Some s) = Undefined.
Proof.
  intros Hdescs Hsen Hnul Hc Hdash. unfold sam_global_opt_help.
  assert (Hlen : (length descs < length s)%nat) by (by eapply lookup_lt_Some).
  replace (S (length (descs ++ sen :: rest)))
    with (length descs + S (S (length rest)))%nat
    by (rewrite length_app; simpl; lia).
  change 0 with (Z.of_nat 0).
  rewrite help_loop_skip; try done; try lia.
  cbn [help_loop]. rewrite (str_at_char _ _ _ Hc). simpl.
  assert (Hcn : c <> NUL).
  { intros ->. apply Hnul. by eapply list_elem_of_lookup_2. }
  destruct (Ascii.eqb_spec c NUL) as [|_]; [done|].
  destruct (Z.ltb_spec (Z.of_nat (length descs))
              (Z.of_nat (length (descs ++ sen :: rest))));
    [|rewrite length_app in *; simpl in *; lia].
  simpl. destruct (Ascii.eqb_spec c "-") as [|_]; [done|].
  rewrite arr_get_nat, list_lookup_middle by done. simpl. by rewrite Hsen.
Qed.

Lemma sam_global_opt_help_reaches_terminator_witness :
  sam_global_opt_help SAM_GLOBAL_LOPTS_INIT "" (Some (chars "-.O-v.")) = Undefined.
Proof.
  apply (sam_global_opt_help_reaches_terminator
           [ opt "input-fmt" 1 0; opt "input-fmt-option" 1 0;
             opt "output-fmt" 1 0; opt "output-fmt-option" 1 0;
             opt "verbose" 0 0 ] sentinel [] (chars "-.O-v.") "."%char "").
  - repeat (constructor; [by eexists|]); constructor.
  - reflexivity.
  - intros Hin. repeat (apply elem_of_cons in Hin as [Hin|Hin]; [discriminate|]).
    by apply elem_of_nil in Hin.
  - reflexivity.
  - discriminate.
Defined.

(** ** From initialisation to release *)

(** Settings that were initialised own no option list, so releasing them
    calls [hts_opt_free] not at all.  After one dispatch of
    [input-fmt-option] on them, release hands [hts_opt_free] the list
    [hts_opt_add] built from the empty one, once, or nothing if that list
    is still empty. *)
Theorem settings_lifecycle `{Htslib} (a : positive) (old : sam_global_args)
    (mem : gmap positive sam_global_args) (fuel : nat) (c : Z)
    (optarg : option string) (pre : list struct_option) (e : struct_option)
    (post : list struct_option) :
  Forall (fun d => is_Some (name d) /\ val d <> c) pre ->
  name e = Some "input-fmt-option"%string -> val e = c ->
  (length pre < fuel)%nat ->
  exists z ga' : sam_global_args,
    sam_global_args_init (Some a) (<[a := old]> mem) = Done (<[a := z]> mem) /\
    sam_global_args_free (Some a) (<[a := z]> mem) = Done [] /\
    parse_sam_global_opt fuel c optarg (pre ++ e :: post) z =
      Done ((hts_opt_add [] optarg).1, ga', []) /\
    sam_global_args_free (Some a) (<[a := ga']> mem) =
      Done (freed_if_any (hts_opt_add [] optarg).2).
Proof.
  intros Hpre Hnm Hval Hfuel. exists zero_args.
  exists (set_in zero_args (set_opts zero_format (hts_opt_add [] optarg).2)).
  split; [|split; [|split]].
  - unfold sam_global_args_init. rewrite lookup_insert_eq.
    by rewrite insert_insert_eq.
  - unfold sam_global_args_free. by rewrite lookup_insert_eq.
  - unfold parse_sam_global_opt.
    replace fuel with (length pre + S (fuel - length pre - 1))%nat by lia.
    change 0 with (Z.of_nat 0) at 1.
    rewrite (dispatch_loop_skip pre (e :: post) c _ 0 zero_args _ Hpre
               (length pre) 0) by lia.
    cbn [dispatch_loop].
    rewrite arr_get_nat, list_lookup_middle by done. simpl.
    rewrite Hnm, Hval, Z.eqb_refl. simpl.
    destruct (hts_opt_add [] optarg) as [r' l]. simpl.
    rewrite arr_get_nat, list_lookup_middle by done. simpl.
    by rewrite Hnm.
  - unfold sam_global_args_free. rewrite lookup_insert_eq.
    cbn [in_ out opts set_in set_opts zero_args zero_format freed_if_any].
    by rewrite app_nil_r.
Qed.

Lemma settings_lifecycle_witness :
  exists z ga' : sam_global_args,
    sam_global_args_init (Some 1%positive) (<[1%positive := args_with_level]> ∅) =
      Done (<[1%positive := z]> ∅) /\
    sam_global_args_free (Some 1%positive) (<[1%positive := z]> ∅) = Done [] /\
    parse_sam_global_opt 4 300 (Some "nthreads=4"%string) opts_remapped z =
      Done ((hts_opt_add [] (Some "nthreads=4"%string)).1, ga', []) /\
    sam_global_args_free (Some 1%positive) (<[1%positive := ga']> ∅) =
      Done (freed_if_any (hts_opt_add [] (Some "nthreads=4"%string)).2).
Proof.
  apply (settings_lifecycle 1%positive args_with_level ∅ 4 300
           (Some "nthreads=4"%string) [] (opt "input-fmt-option" 1 300)
           [opt "output-fmt" 1 79; opt "verbose" 0 118; sentinel; sentinel]).
  - constructor.
  - reflexivity.
  - reflexivity.
  - simpl. lia.
Defined.

(** ** Remapping, then dispatching a code no kept entry carries *)

(** After the table has been remapped with one character per descriptor,
    a code that no kept descriptor carries is refused with -1 and the
    settings are left alone.  The copies of dropped descriptors that the
    compaction leaves behind the terminating entry are not looked at, even
    when one of them carries the code. *)
Theorem remap_then_dispatch_unmatched `{Htslib} (descs : list struct_option)
    (sen : struct_option) (rest : list struct_option) (s : list ascii)
    (code : Z) (fuel : nat) (optarg : option string) (ga : sam_global_args) :
  Forall (fun d => is_Some (name d)) descs -> name sen = None ->
  NUL ∉ s -> length s = length descs ->
  Forall (fun d => val d <> code) (compacted s descs) ->
  (length s < fuel)%nat ->
  exists t' : list struct_option,
    assign_short_opts (descs ++ sen :: rest) (Some s) = Done t' /\
    parse_sam_global_opt fuel code optarg t' ga =
      Done (-1, ga, [Unexpected_global_option None]).
Proof.
  intros Hdescs Hsen Hnul Hlen Hvals Hfuel.
  destruct (assign_short_opts_run (descs ++ sen :: rest) s sen Hnul)
    as (junk & Hrun & _).
  { rewrite Hlen. by apply list_lookup_middle. }
  eexists. split; [exact Hrun|].
  assert (Hcm : compacted s (descs ++ sen :: rest) = compacted s descs).
  { by rewrite compacted_take, Hlen, take_app_length. }
  rewrite Hcm.
  assert (Hpre : Forall (fun d => is_Some (name d) /\ val d <> code)
                        (compacted s descs)).
  { apply Forall_and. split; [by apply compacted_named|done]. }
  assert (Hk : (length (compacted s descs) <= length s)%nat).
  { rewrite compacted_length by lia. lia. }
  unfold parse_sam_global_opt.
  replace fuel with (length (compacted s descs) +
                     S (fuel - length (compacted s descs) - 1))%nat by lia.
  change 0 with (Z.of_nat 0) at 1.
  rewrite (dispatch_loop_skip _ (sen :: junk) code optarg 0 ga _ Hpre
             (length (compacted s descs)) 0) by lia.
  cbn [dispatch_loop].
  rewrite arr_get_nat, list_lookup_middle by done. simpl.
  rewrite Hsen. simpl.
  rewrite arr_get_nat, list_lookup_middle by done. simpl.
  by rewrite Hsen.
Qed.

Lemma remap_then_dispatch_unmatched_witness :
  exists t' : list struct_option,
    assign_short_opts opts_ab (Some (chars "--")) = Done t' /\
    parse_sam_global_opt 3 301 None t' args_with_level =
      Done (-1, args_with_level, [Unexpected_global_option None]).
Proof.
  apply (remap_then_dispatch_unmatched
           [opt "input-fmt" 1 300; opt "verbose" 0 301] sentinel []
           (chars "--") 301 3 None args_with_level).
  - repeat (constructor; [by eexists|]); constructor.
  - reflexivity.
  - intros Hin. repeat (apply elem_of_cons in Hin as [Hin|Hin]; [discriminate|]).
    by apply elem_of_nil in Hin.
  - reflexivity.
  - constructor.
  - simpl. lia.
Defined.
